(** * App.tsx: streamed chat rendering, edit submission and image history

    A shallow embedding of the handlers of [src/App.tsx] (the [App]
    component): the per-chunk segmentation of the streamed answer into
    rendered parts ([handleChatSubmit], lines 227-245, and the [CodeBlock]
    component, lines 260-283), the chat log handlers ([startNewChat],
    [handleChatSubmit]), and the edit handlers ([handleGenerate],
    [handleGenerateMultiView]).

    A JavaScript string is a sequence of UTF-16 code units; it is modelled
    as a list of numbers, one per code unit. *)

From Stdlib Require Import String Ascii.
From Stdlib Require DecimalString.
From Stdlib Require Import List NArith Arith Lia Bool.
From Equations Require Import Equations.
From Equations.Prop Require Import Logic.
Import ListNotations.

(** ** JavaScript strings and the string primitives the handlers call *)

Module JS.

Definition code_unit := N.
Definition jsstring := list code_unit.

(** A string literal of the source, as code units (ASCII literals only). *)
Definition str (s : String.string) : jsstring :=
  map Ascii.N_of_ascii (String.list_ascii_of_string s).

Definition LF : code_unit := 10%N.
Definition backtick : code_unit := 96%N.
Definition dquote : code_unit := 34%N.

(** [s.startsWith(p)] *)
Fixpoint startsWith (s p : jsstring) {struct p} : bool :=
  match p, s with
  | [], _ => true
  | _ :: _, [] => false
  | a :: p', b :: s' => (a =? b)%N && startsWith s' p'
  end.

(** [a === b] on strings *)
Fixpoint streq (a b : jsstring) : bool :=
  match a, b with
  | [], [] => true
  | x :: a', y :: b' => (x =? y)%N && streq a' b'
  | _, _ => false
  end.

(** [s.split('\n')]: the pieces between line feeds; the empty string gives
    one empty piece. *)
Fixpoint split_LF (s : jsstring) : list jsstring :=
  match s with
  | [] => [[]]
  | c :: s' =>
      if (c =? LF)%N then [] :: split_LF s'
      else match split_LF s' with
           | l :: ls => (c :: l) :: ls
           | [] => [[c]]
           end
  end.

(** [lines.join('\n')] *)
Fixpoint join_LF (ls : list jsstring) : jsstring :=
  match ls with
  | [] => []
  | [l] => l
  | l :: ls' => l ++ LF :: join_LF ls'
  end.

(** The class [\w] of a regular expression without the [i] and [u] flags:
    [A-Za-z0-9_]. *)
Definition isWord (c : code_unit) : bool :=
  ((48 <=? c) && (c <=? 57) || (65 <=? c) && (c <=? 90)
   || (c =? 95) || (97 <=? c) && (c <=? 122))%N.

(** [toLowerCase] on one code unit of the ASCII range: [A-Z] moves to
    [a-z].  The handlers lower-case only the language tag of a fence, which
    the expression [(\w* )] captured, so no other code unit reaches it. *)
Definition lower (c : code_unit) : code_unit :=
  if ((65 <=? c) && (c <=? 90))%N then (c + 32)%N else c.

Definition toLowerCase (s : jsstring) : jsstring := map lower s.

(** White space and line terminators, the code units [trim] strips. *)
Definition isWhiteSpace (c : code_unit) : bool :=
  ((9 <=? c) && (c <=? 13) || (c =? 32) || (c =? 160) || (c =? 5760)
   || (8192 <=? c) && (c <=? 8202) || (c =? 8232) || (c =? 8233)
   || (c =? 8239) || (c =? 8287) || (c =? 12288) || (c =? 65279))%N.

(** [!s.trim()]: trimming leaves nothing exactly when every code unit is
    white space. *)
Definition isBlank (s : jsstring) : bool := forallb isWhiteSpace s.

(** The longest prefix of [s] whose code units satisfy [p], and the rest:
    a greedy [p*]. *)
Fixpoint span (p : code_unit -> bool) (s : jsstring) : jsstring * jsstring :=
  match s with
  | c :: s' =>
      if p c then let (a, b) := span p s' in (c :: a, b) else ([], s)
  | [] => ([], [])
  end.

End JS.

(** ** Segmentation of the accumulated answer (lines 229-238) *)

Module Segmenter.
Import JS.

Definition fence : jsstring := [backtick; backtick; backtick].

(** The lazy [[\s\S]*?] followed by the closing fence: the text before the
    earliest occurrence of three backticks, and the text after it. *)
Fixpoint lazy_until_fence (s : jsstring) : option (jsstring * jsstring) :=
  if startsWith s fence then Some ([], skipn 3 s)
  else match s with
       | [] => None
       | c :: s' =>
           match lazy_until_fence s' with
           | Some (body, rest) => Some (c :: body, rest)
           | None => None
           end
       end.

(** One attempt of the splitter [/(```[\s\S]*?```)/g] at the start of [s]:
    the matched text (all of it is the capture group) and what follows. *)
Definition exec_fence (s : jsstring) : option (jsstring * jsstring) :=
  if startsWith s fence then
    match lazy_until_fence (skipn 3 s) with
    | Some (body, rest) => Some (fence ++ body ++ fence, rest)
    | None => None
    end
  else None.

(** The splitter's search: the position is advanced one code unit at a time
    until an attempt succeeds.  Returns the text skipped, the match, and
    the text after the match. *)
Fixpoint search_fence (s : jsstring)
  : option (jsstring * jsstring * jsstring) :=
  match exec_fence s with
  | Some (m, rest) => Some ([], m, rest)
  | None =>
      match s with
      | [] => None
      | c :: s' =>
          match search_fence s' with
          | Some (b, m, r) => Some (c :: b, m, r)
          | None => None
          end
      end
  end.

(** *** What a match consists of, and why the splitter terminates *)

Lemma startsWith_app s p :
  startsWith s p = true -> s = p ++ skipn (length p) s.
Proof.
  revert s. induction p as [|a p IH]; intros [|b s]; simpl; try easy.
  intros H. apply andb_prop in H as [H1 H2].
  apply N.eqb_eq in H1. subst b. f_equal. now apply IH.
Qed.

Lemma startsWith_prefix p r : startsWith (p ++ r) p = true.
Proof.
  induction p as [|a p IH]; simpl; [reflexivity|].
  now rewrite N.eqb_refl.
Qed.

Lemma lazy_until_fence_sound s body rest :
  lazy_until_fence s = Some (body, rest) -> s = body ++ fence ++ rest.
Proof.
  revert body rest. induction s as [|c s IH]; intros body rest.
  - simpl. discriminate.
  - cbn [lazy_until_fence].
    destruct (startsWith (c :: s) fence) eqn:E.
    + intros [= <- <-]. now apply startsWith_app in E.
    + destruct (lazy_until_fence s) as [[b r]|]; [|discriminate].
      intros [= <- <-]. simpl. f_equal. now apply IH.
Qed.

Lemma exec_fence_sound s m rest :
  exec_fence s = Some (m, rest) ->
  s = m ++ rest /\ exists body, m = fence ++ body ++ fence.
Proof.
  unfold exec_fence.
  destruct (startsWith s fence) eqn:E; [|discriminate].
  destruct (lazy_until_fence (skipn 3 s)) as [[b r]|] eqn:E1; [|discriminate].
  intros [= <- <-]. apply lazy_until_fence_sound in E1.
  apply startsWith_app in E. change (length fence) with 3 in E.
  split; [|now exists b].
  rewrite E at 1. rewrite E1. unfold fence. simpl.
  now rewrite <- app_assoc.
Qed.

Lemma search_fence_sound s b m r :
  search_fence s = Some (b, m, r) ->
  s = b ++ m ++ r /\ exec_fence (m ++ r) = Some (m, r).
Proof.
  revert b m r. induction s as [|c s IH]; intros b m r.
  - simpl. discriminate.
  - cbn [search_fence].
    destruct (exec_fence (c :: s)) as [[m0 r0]|] eqn:E.
    + intros [= <- <- <-]. destruct (exec_fence_sound _ _ _ E) as [Hs _].
      split; [exact Hs | now rewrite <- Hs].
    + destruct (search_fence s) as [[[b1 m1] r1]|] eqn:E1; [|discriminate].
      intros [= <- <- <-]. destruct (IH _ _ _ eq_refl) as [Hs H].
      split; [simpl; now f_equal | exact H].
Qed.

Lemma search_fence_shorter s b m r :
  search_fence s = Some (b, m, r) -> length r < length s.
Proof.
  intros H. destruct (search_fence_sound _ _ _ _ H) as [-> H1].
  destruct (exec_fence_sound _ _ _ H1) as [_ [body ->]].
  rewrite !length_app. simpl. lia.
Qed.

(** A complete fence: the splitter's expression matches all of [m]. *)
Definition complete_fence (m : jsstring) : Prop :=
  exec_fence m = Some (m, []).

(** [responseText.split(/(```[\s\S]*?```)/g)]: the text before each match,
    the match itself (the capture group), and, after the last match, the
    remaining text.  No match is empty, so every match found is kept. *)
Equations split_fence (s : jsstring) : list jsstring by wf (length s) lt :=
  split_fence s with inspect (search_fence s) := {
    | exist _ None _ => [s]
    | exist _ (Some (b, m, r)) H => b :: m :: split_fence r }.
Next Obligation.
  eapply search_fence_shorter; eauto.
Qed.

(** One attempt of [/```(\w* )\n([\s\S]+?)```/] at the start of [s]: the
    two capture groups.  [\w*] is greedy; a shorter run would be followed by
    a word character, never by the line feed the expression asks for next,
    so backtracking into it cannot succeed.  [[\s\S]+?] takes one code unit
    and then extends to the earliest closing fence. *)
Definition exec_code_fence (s : jsstring) : option (jsstring * jsstring) :=
  if startsWith s fence then
    let (lang, s1) := span isWord (skipn 3 s) in
    match s1 with
    | c :: c1 :: s2 =>
        if (c =? LF)%N then
          match lazy_until_fence s2 with
          | Some (body, _) => Some (lang, c1 :: body)
          | None => None
          end
        else None
    | _ => None
    end
  else None.

(** [part.match(/```(\w* )\n([\s\S]+?)```/)]: the expression is not
    anchored, so the first position at which an attempt succeeds decides. *)
Fixpoint match_code_fence (s : jsstring) : option (jsstring * jsstring) :=
  match exec_code_fence s with
  | Some r => Some r
  | None =>
      match s with
      | [] => None
      | _ :: s' => match_code_fence s'
      end
  end.

(** What one part of the split text is rendered as. *)
Inductive Rendered : Type :=
| PreCode (part : jsstring)
    (* <pre><code>{part}</code></pre> *)
| CodeBlockView (language code : jsstring) (isHtml : bool)
    (* the CodeBlock component; the Run button is shown when isHtml *)
| Fragment (lines : list jsstring).
    (* one <p>{line}</p> per line *)

(** [CodeBlock] (lines 260-283): [isHtml] is
    [language.toLowerCase() === 'html']. *)
Definition isHtml (language : jsstring) : bool :=
  streq (toLowerCase language) (str "html").

Definition CodeBlock (language code : jsstring) : Rendered :=
  CodeBlockView language code (isHtml language).

(** The body of [parts.map((part, i) => ...)] (lines 230-238). *)
Definition render_part (part : jsstring) : Rendered :=
  if startsWith part fence then
    match match_code_fence part with
    | None => PreCode part
    | Some (lang, code) => CodeBlock lang code
    end
  else Fragment (split_LF part).

(** [rendered] for an accumulated [responseText] (lines 229-238). *)
Definition segment (responseText : jsstring) : list Rendered :=
  map render_part (split_fence responseText).

(** A text is closed when the splitter leaves nothing after its last
    match: the text is empty, or it ends with the closing fence of a
    complete fence that the splitter splits off. *)
Definition closed (s : jsstring) : Prop := last (split_fence s) [] = [].

(** The text a rendered part shows, when it shows its part as it is. *)
Definition raw_text (r : Rendered) : option jsstring :=
  match r with
  | PreCode part => Some part
  | Fragment lines => Some (join_LF lines)
  | CodeBlockView _ _ _ => None
  end.

Definition is_code (r : Rendered) : bool :=
  match r with
  | CodeBlockView _ _ _ => true
  | _ => false
  end.

(** No three backticks start at a position before [n] of [s]. *)
Definition no_fence_before (n : nat) (s : jsstring) : Prop :=
  forall k, k < n -> startsWith (skipn k s) fence = false.

(** A complete fenced block, told by the text alone: three backticks, a
    body, and three backticks that are the first to follow the opening
    ones. *)
Definition fenced_block (f : jsstring) : Prop :=
  exists body,
    f = fence ++ body ++ fence
    /\ no_fence_before (length body) (body ++ fence).

(** Text before a fenced block that leaves the block where it is: no
    three backticks start in it, not even three that would run into the
    opening fence of the block. *)
Definition plain_before_fence (prose : jsstring) : Prop :=
  no_fence_before (length prose) (prose ++ fence).

(** A piece of a text: some text and the fenced block that follows it. *)
Definition fenced_piece (piece : jsstring * jsstring) : Prop :=
  plain_before_fence (fst piece) /\ fenced_block (snd piece).

(** The text made of the pieces and of what follows the last of them. *)
Definition text_of_pieces (pieces : list (jsstring * jsstring))
  (tail : jsstring) : jsstring :=
  concat (map (fun piece => fst piece ++ snd piece) pieces) ++ tail.

End Segmenter.

(** ** The image history *)

Module ImageHistory.
Import JS.

(** [ImageFile] of [types.ts]. *)
Record ImageFile : Type := {
  mimeType : jsstring;
  data : jsstring  (* base64 encoded *)
}.

(** Modelled from the spec: the hook [useImageHistory]
    ([./hooks/useImageHistory]), of which [App] only destructures
    [currentImage], [originalImage], [canUndo], [isImageLoaded], [push],
    [undo] and [reset] (line 81).  The history is the ordered sequence
    [entries] together with [original] and [current]; the operations
    update the three as the specification describes their effects. *)
Record History : Type := {
  entries : list ImageFile;
  original : option ImageFile;
  current : option ImageFile
}.

(** Modelled from the spec: the history is created empty. *)
Definition empty : History :=
  {| entries := []; original := None; current := None |}.

(** Modelled from the spec: [canUndo = entries.length > 1]. *)
Definition canUndo (h : History) : bool := 1 <? length (entries h).

(** Modelled from the spec: [isImageLoaded] is derived,
    [entries.length > 0]. *)
Definition isImageLoaded (h : History) : bool := 0 <? length (entries h).

(** Modelled from the spec: [reset(image)] replaces the entire history
    with a single-entry history; [original] and [current] both equal
    [image]. *)
Definition reset (image : ImageFile) (h : History) : History :=
  {| entries := [image]; original := Some image; current := Some image |}.

(** Modelled from the spec: [push(image)] appends and [current] updates;
    [original] is the first entry pushed since the last reset. *)
Definition push (image : ImageFile) (h : History) : History :=
  {| entries := entries h ++ [image];
     original := match original h with
                 | Some o => Some o
                 | None => Some image
                 end;
     current := Some image |}.

(** The last entry of a sequence, absent when there is none. *)
Definition last_entry (es : list ImageFile) : option ImageFile :=
  match es with
  | [] => None
  | e :: es' => Some (last es' e)
  end.

(** Modelled from the spec: [undo()] removes the last entry when
    [canUndo], and [current] reverts to the prior entry; otherwise nothing
    changes. *)
Definition undo (h : History) : History :=
  if canUndo h then
    {| entries := removelast (entries h);
       original := original h;
       current := last_entry (removelast (entries h)) |}
  else h.

(** Modelled from the spec: [undo()] repeated until [canUndo] is false.
    The count bounds the
    number of rounds; [undo_all] starts it with the length of the history,
    which is more than the rounds that can happen. *)
Fixpoint undo_until (rounds : nat) (h : History) : History :=
  match rounds with
  | 0 => h
  | S k => if canUndo h then undo_until k (undo h) else h
  end.

Definition undo_all (h : History) : History :=
  undo_until (length (entries h)) h.

(** Modelled from the spec: the invariant of the data model.  [original]
    is [entries[0]] (and absent with no entry), and [current] is the last
    entry. *)
Definition invariant (h : History) : Prop :=
  original h = hd_error (entries h) /\ current h = last_entry (entries h).

End ImageHistory.

(** ** The [App] component: state and handlers *)

Module App.
Import JS Segmenter ImageHistory.

(** [ChatMessage] of [types.ts]. *)
Inductive Role : Type := user | model.

Inductive Part : Type := TextPart (text : jsstring).

(** The values [renderedContent] takes in [App]. *)
Inductive Content : Type :=
| Paragraph (text : jsstring)
    (* <p>{text}</p> *)
| WithImage (message name : jsstring)
    (* the message and, below it, the attached image *)
| WithFileName (message name : jsstring)
    (* the message and, below it, the name of the attached file *)
| EmptyContent
    (* the empty string of the entry awaiting its first chunk *)
| Rendered_div (rendered : list Rendered)
    (* <div>{rendered}</div> *)
| ErrorParagraph.
    (* <p className="text-red-400">Sorry, I encountered an error.</p> *)

Record ChatMessage : Type := {
  role : Role;
  parts : list Part;
  renderedContent : Content
}.

(** A [File]: the handlers read its [type] and its [name] only. *)
Record File : Type := { file_type : jsstring; file_name : jsstring }.

(** A chat session handle, as [geminiService.createChatSession()] returns
    it; handles are told apart by a number. *)
Definition Chat := nat.

(** The value a rejected promise or a failed stream throws: the handlers
    read [err.message] only. *)
Record Thrown : Type := { message : option jsstring }.

(** The outcome of an awaited collaborator call. *)
Inductive Settled (A : Type) : Type :=
| Fulfilled (value : A)
| Rejected (err : Thrown).
Arguments Fulfilled {A} value.
Arguments Rejected {A} err.

(** [m || fallback] for a string that may be missing: the fallback is taken
    when [m] is undefined or empty. *)
Definition or_else (m : option jsstring) (fallback : jsstring) : jsstring :=
  match m with
  | Some (c :: s) => c :: s
  | _ => fallback
  end.

(** The state of [App] the handlers below read or write (lines 81-101).
    [history] is what [useImageHistory()] holds. *)
Record State : Type := {
  history : History;
  isLoading : bool;
  loadingText : jsstring;
  error : jsstring;
  prompt : jsstring;
  isDraftMode : bool;
  maskDataUrl : option jsstring;
  clearMaskSignal : nat;
  chatMessages : list ChatMessage;
  isThinking : bool;
  chatSessionRef : option Chat;
  multiViewImages : list ImageFile
}.

(** The state at the first render. *)
Definition initial : State :=
  {| history := empty; isLoading := false;
     loadingText := str "Applying AI magic..."; error := [];
     prompt := []; isDraftMode := true; maskDataUrl := None;
     clearMaskSignal := 0; chatMessages := []; isThinking := false;
     chatSessionRef := None; multiViewImages := [] |}.

Definition setHistory (f : History -> History) (st : State) : State :=
  {| history := f (history st); isLoading := isLoading st;
     loadingText := loadingText st; error := error st; prompt := prompt st;
     isDraftMode := isDraftMode st; maskDataUrl := maskDataUrl st;
     clearMaskSignal := clearMaskSignal st; chatMessages := chatMessages st;
     isThinking := isThinking st; chatSessionRef := chatSessionRef st;
     multiViewImages := multiViewImages st |}.

Definition setIsLoading (v : bool) (st : State) : State :=
  {| history := history st; isLoading := v;
     loadingText := loadingText st; error := error st; prompt := prompt st;
     isDraftMode := isDraftMode st; maskDataUrl := maskDataUrl st;
     clearMaskSignal := clearMaskSignal st; chatMessages := chatMessages st;
     isThinking := isThinking st; chatSessionRef := chatSessionRef st;
     multiViewImages := multiViewImages st |}.

Definition setLoadingText (v : jsstring) (st : State) : State :=
  {| history := history st; isLoading := isLoading st;
     loadingText := v; error := error st; prompt := prompt st;
     isDraftMode := isDraftMode st; maskDataUrl := maskDataUrl st;
     clearMaskSignal := clearMaskSignal st; chatMessages := chatMessages st;
     isThinking := isThinking st; chatSessionRef := chatSessionRef st;
     multiViewImages := multiViewImages st |}.

Definition setError (v : jsstring) (st : State) : State :=
  {| history := history st; isLoading := isLoading st;
     loadingText := loadingText st; error := v; prompt := prompt st;
     isDraftMode := isDraftMode st; maskDataUrl := maskDataUrl st;
     clearMaskSignal := clearMaskSignal st; chatMessages := chatMessages st;
     isThinking := isThinking st; chatSessionRef := chatSessionRef st;
     multiViewImages := multiViewImages st |}.

Definition setPrompt (v : jsstring) (st : State) : State :=
  {| history := history st; isLoading := isLoading st;
     loadingText := loadingText st; error := error st; prompt := v;
     isDraftMode := isDraftMode st; maskDataUrl := maskDataUrl st;
     clearMaskSignal := clearMaskSignal st; chatMessages := chatMessages st;
     isThinking := isThinking st; chatSessionRef := chatSessionRef st;
     multiViewImages := multiViewImages st |}.

Definition setClearMaskSignal (f : nat -> nat) (st : State) : State :=
  {| history := history st; isLoading := isLoading st;
     loadingText := loadingText st; error := error st; prompt := prompt st;
     isDraftMode := isDraftMode st; maskDataUrl := maskDataUrl st;
     clearMaskSignal := f (clearMaskSignal st);
     chatMessages := chatMessages st;
     isThinking := isThinking st; chatSessionRef := chatSessionRef st;
     multiViewImages := multiViewImages st |}.

Definition setChatMessages (f : list ChatMessage -> list ChatMessage)
  (st : State) : State :=
  {| history := history st; isLoading := isLoading st;
     loadingText := loadingText st; error := error st; prompt := prompt st;
     isDraftMode := isDraftMode st; maskDataUrl := maskDataUrl st;
     clearMaskSignal := clearMaskSignal st;
     chatMessages := f (chatMessages st);
     isThinking := isThinking st; chatSessionRef := chatSessionRef st;
     multiViewImages := multiViewImages st |}.

Definition setIsThinking (v : bool) (st : State) : State :=
  {| history := history st; isLoading := isLoading st;
     loadingText := loadingText st; error := error st; prompt := prompt st;
     isDraftMode := isDraftMode st; maskDataUrl := maskDataUrl st;
     clearMaskSignal := clearMaskSignal st; chatMessages := chatMessages st;
     isThinking := v; chatSessionRef := chatSessionRef st;
     multiViewImages := multiViewImages st |}.

Definition setChatSessionRef (v : option Chat) (st : State) : State :=
  {| history := history st; isLoading := isLoading st;
     loadingText := loadingText st; error := error st; prompt := prompt st;
     isDraftMode := isDraftMode st; maskDataUrl := maskDataUrl st;
     clearMaskSignal := clearMaskSignal st; chatMessages := chatMessages st;
     isThinking := isThinking st; chatSessionRef := v;
     multiViewImages := multiViewImages st |}.

Definition setMultiViewImages (v : list ImageFile) (st : State) : State :=
  {| history := history st; isLoading := isLoading st;
     loadingText := loadingText st; error := error st; prompt := prompt st;
     isDraftMode := isDraftMode st; maskDataUrl := maskDataUrl st;
     clearMaskSignal := clearMaskSignal st; chatMessages := chatMessages st;
     isThinking := isThinking st; chatSessionRef := chatSessionRef st;
     multiViewImages := v |}.

(** [handleShowError] (lines 104-107): the message becomes the text of the
    error toast. *)
Definition handleShowError (message : jsstring) (st : State) : State :=
  setError message st.

(** *** [handleGenerate] (lines 127-145) *)

(** The arguments of [geminiService.editImage]. *)
Record EditRequest : Type := {
  req_prompt : jsstring;
  req_image : ImageFile;
  req_mask : option jsstring;
  req_draft : bool
}.

(** The handler up to its [await]: the state it leaves and the call it
    makes, or no call when it returned at line 128 or 131. *)
Definition handleGenerate_call (st : State) : State * option EditRequest :=
  if isBlank (prompt st) then (st, None)
  else
    match current (history st) with
    | None =>
        (handleShowError
           (str "Please upload an image first to apply an edit.") st, None)
    | Some currentImage =>
        (setLoadingText
           (str "Applying " ++ dquote :: prompt st ++ dquote :: str "...")
           (setIsLoading true st),
         Some {| req_prompt := prompt st; req_image := currentImage;
                 req_mask := maskDataUrl st; req_draft := isDraftMode st |})
    end.

(** The handler from the point the awaited call settles: the [try] body or
    the [catch] clause, then [finally]. *)
Definition handleGenerate_settle (result : Settled ImageFile) (st : State)
  : State :=
  setIsLoading false
    match result with
    | Fulfilled editedImage =>
        setClearMaskSignal (fun s => s + 1)
          (setPrompt [] (setHistory (push editedImage) st))
    | Rejected err =>
        handleShowError
          (or_else (message err)
             (str "An unknown error occurred during editing.")) st
    end.

Definition handleGenerate (editImage : EditRequest -> Settled ImageFile)
  (st : State) : State :=
  match handleGenerate_call st with
  | (st1, Some request) => handleGenerate_settle (editImage request) st1
  | (st1, None) => st1
  end.

(** *** [handleGenerateMultiView] (lines 172-184) *)

Definition handleGenerateMultiView_call (st : State)
  : State * option (jsstring * ImageFile) :=
  match current (history st) with
  | None => (st, None)
  | Some currentImage =>
      (setLoadingText (str "Generating professional views...")
         (setIsLoading true st),
       Some (prompt st, currentImage))
  end.

Definition handleGenerateMultiView_settle (result : Settled (list ImageFile))
  (st : State) : State :=
  setIsLoading false
    match result with
    | Fulfilled images => setMultiViewImages images st
    | Rejected err =>
        handleShowError
          (or_else (message err)
             (str "Failed to generate multi-view images.")) st
    end.

Definition handleGenerateMultiView
  (generateMultiView : jsstring -> ImageFile -> Settled (list ImageFile))
  (st : State) : State :=
  match handleGenerateMultiView_call st with
  | (st1, Some (p, image)) =>
      handleGenerateMultiView_settle (generateMultiView p image) st1
  | (st1, None) => st1
  end.

(** [MultiViewModal] (lines 47-64): every image with the caption its index
    gives it. *)
Definition view_caption (index : nat) : jsstring :=
  nth index
    [str "Front View"; str "Side View"; str "Rear View"; str "Overhead View"]
    (str "View "
       ++ str (DecimalString.NilEmpty.string_of_uint (Nat.to_uint (index + 1)))).

Fixpoint captioned (index : nat) (images : list ImageFile)
  : list (ImageFile * jsstring) :=
  match images with
  | [] => []
  | img :: rest => (img, view_caption index) :: captioned (S index) rest
  end.

(** What line 306 shows: the modal, when there is an image to show. *)
Definition MultiViewModal (st : State) : option (list (ImageFile * jsstring)) :=
  match multiViewImages st with
  | [] => None
  | images => Some (captioned 0 images)
  end.

(** *** [startNewChat] (lines 187-191) *)

Definition welcomeMessage : jsstring :=
  str "Hello! I'm your AI creative partner. How can I help you today? You can attach images, documents, or code for analysis.".

Definition welcome : ChatMessage :=
  {| role := model; parts := [TextPart welcomeMessage];
     renderedContent := Paragraph welcomeMessage |}.

(** [session] is the handle [geminiService.createChatSession()] returns. *)
Definition startNewChat (session : Chat) (st : State) : State :=
  setChatMessages (fun _ => [welcome]) (setChatSessionRef (Some session) st).

(** *** [handleChatSubmit] (lines 205-252) *)

Definition userRenderedContent (message : jsstring)
  (attachmentFile : option File) : Content :=
  match attachmentFile with
  | None => Paragraph message
  | Some f =>
      if startsWith (file_type f) (str "image/")
      then WithImage message (file_name f)
      else WithFileName message (file_name f)
  end.

(** The arguments of [geminiService.sendChatMessage]. *)
Definition ChatRequest : Type := Chat * jsstring * option File.

(** Lines 206-221: up to the [await] of [sendChatMessage]. *)
Definition handleChatSubmit_send (message : jsstring)
  (attachmentFile : option File) (st : State) : State * option ChatRequest :=
  match chatSessionRef st with
  | None => (st, None)
  | Some session =>
      (setIsThinking true
         (setChatMessages
            (fun prev =>
               prev ++ [{| role := user; parts := [];
                           renderedContent :=
                             userRenderedContent message attachmentFile |}])
            st),
       Some (session, message, attachmentFile))
  end.

(** Lines 222-225: the stream is there; [responseText] starts empty and the
    entry of the answer is appended. *)
Definition currentMessage : ChatMessage :=
  {| role := model; parts := []; renderedContent := EmptyContent |}.

Definition handleChatSubmit_open (st : State) : jsstring * State :=
  ([], setChatMessages (fun prev => prev ++ [currentMessage]) st).

(** [newMessages[newMessages.length - 1] = v] on a copy of [prev]: the last
    element is replaced.  On an empty array the assignment creates the
    property [-1] and no element, so the array stays empty. *)
Fixpoint replace_last (prev : list ChatMessage)
  (f : ChatMessage -> ChatMessage) : list ChatMessage :=
  match prev with
  | [] => []
  | [m] => [f m]
  | m :: rest => m :: replace_last rest f
  end.

(** Lines 228-244: the body of the loop for one chunk.  The loop's own
    variable [responseText] is threaded with the state. *)
Definition handleChatSubmit_chunk (chunk_text : jsstring)
  (run : jsstring * State) : jsstring * State :=
  let (responseText, st) := run in
  let responseText := responseText ++ chunk_text in
  let rendered := segment responseText in
  (responseText,
   setChatMessages
     (fun prev =>
        replace_last prev
          (fun m => {| role := role m; parts := parts m;
                       renderedContent := Rendered_div rendered |}))
     st).

(** The entry a chunk leaves in place of the entry [m]: [m] with the
    segmentation of [responseText] as its rendered content. *)
Definition with_rendered (responseText : jsstring) (m : ChatMessage)
  : ChatMessage :=
  {| role := role m; parts := parts m;
     renderedContent := Rendered_div (segment responseText) |}.

(** Lines 246-251: the stream (or the call) threw. *)
Definition errorMessage : ChatMessage :=
  {| role := model; parts := []; renderedContent := ErrorParagraph |}.

Definition handleChatSubmit_catch (err : Thrown) (st : State) : State :=
  setIsThinking false
    (setChatMessages (fun prev => prev ++ [errorMessage])
       (handleShowError
          (or_else (message err) (str "An error occurred in chat.")) st)).

(** Lines 249-251 after a stream that ended by itself. *)
Definition handleChatSubmit_finally (st : State) : State :=
  setIsThinking false st.

(** How a stream ends. *)
Inductive StreamEnd : Type :=
| Completed
| Failed (err : Thrown).

(** One response, from the opening of the stream to its end: the chunks in
    the order they arrive, then the end. *)
Definition consume_stream (chunks : list jsstring) (ending : StreamEnd)
  (st : State) : State :=
  let (_, st1) :=
    fold_left (fun run chunk => handleChatSubmit_chunk chunk run) chunks
      (handleChatSubmit_open st) in
  match ending with
  | Completed => handleChatSubmit_finally st1
  | Failed err => handleChatSubmit_catch err st1
  end.

End App.

(** ** The rest of [App]: upload, download, quick edits and the overlays *)

Module AppRest.
Import JS Segmenter ImageHistory App.

Definition comma : code_unit := 44%N.

(** [s.split(sep)] for a separator of one code unit: the pieces between
    the separators; the empty string gives one empty piece. *)
Fixpoint split_on (sep : code_unit) (s : jsstring) : list jsstring :=
  match s with
  | [] => [[]]
  | c :: s' =>
      if (c =? sep)%N then [] :: split_on sep s'
      else match split_on sep s' with
           | l :: ls => (c :: l) :: ls
           | [] => [[c]]
           end
  end.

(** The text holds no comma. *)
Definition no_comma (s : jsstring) : bool :=
  forallb (fun c => negb (c =? comma)%N) s.

(** *** [handleImageUpload] (lines 109-125) *)

(** The handler up to its [await]: the state it leaves and the file it has
    [fileToDataURL] read, or no file when it returned at line 112. *)
Definition handleImageUpload_call (file : File) (st : State)
  : State * option File :=
  if startsWith (file_type file) (str "image/") then
    (setLoadingText (str "Processing image...") (setIsLoading true st),
     Some file)
  else
    (handleShowError (str "Please upload a valid image file.") st, None).

(** The handler from the point the read settles.  [dataUrl.split(',')[1]]
    is undefined for a URL that holds no comma; the image would then carry
    no data, which [ImageFile] cannot hold, and no state is given. *)
Definition handleImageUpload_settle (file : File) (result : Settled jsstring)
  (st : State) : option State :=
  match result with
  | Fulfilled dataUrl =>
      match nth_error (split_on comma dataUrl) 1 with
      | Some d =>
          let newImage := {| mimeType := file_type file; data := d |} in
          Some (setIsLoading false (setHistory (reset newImage) st))
      | None => None
      end
  | Rejected _ =>
      Some (setIsLoading false
              (handleShowError (str "Could not process the uploaded file.")
                 st))
  end.

Definition handleImageUpload (fileToDataURL : File -> Settled jsstring)
  (file : File) (st : State) : option State :=
  match handleImageUpload_call file st with
  | (st1, Some f) => handleImageUpload_settle file (fileToDataURL f) st1
  | (st1, None) => Some st1
  end.

(** *** [handleDownload] (lines 162-170) *)

(** [`data:${img.mimeType};base64,${img.data}`] (lines 57 and 165). *)
Definition data_url (img : ImageFile) : jsstring :=
  str "data:" ++ mimeType img ++ str ";base64," ++ data img.

(** The link the handler clicks, as its [href] and its [download] name, or
    nothing when it returned at line 163. *)
Definition handleDownload (st : State) : option (jsstring * jsstring) :=
  match current (history st) with
  | None => None
  | Some currentImage => Some (data_url currentImage, str "edited-image.png")
  end.

(** *** [handleMagicEdit] and the effect on [prompt] (lines 147-159) *)







(** *** The overlays (lines 20-45 and 304-307) *)

(** [LoadingOverlay]: the text shown, or nothing. *)
Definition LoadingOverlay (st : State) : option jsstring :=
  if isLoading st then Some (loadingText st) else None.

(** [ErrorToast]: the message shown, or nothing for the empty message. *)
Definition ErrorToast (st : State) : option jsstring :=
  match error st with
  | [] => None
  | c :: m => Some (c :: m)
  end.

(** The Run button of [CodeBlock] (line 276): the code its click passes to
    [onRunCode], or nothing for a rendered part without the button. *)
Definition run_button (r : Rendered) : option jsstring :=
  match r with
  | CodeBlockView _ code true => Some code
  | _ => None
  end.

(** Line 307, [{codeToRun && <CodeRunnerModal code={codeToRun} .../>}]: the
    document the preview shows, or nothing when [codeToRun] is null or the
    empty string. *)
Definition CodeRunnerModal (codeToRun : option jsstring) : option jsstring :=
  match codeToRun with
  | Some (c :: code) => Some (c :: code)
  | _ => None
  end.

End AppRest.

(** * Properties *)

Import JS Segmenter ImageHistory App.

(** *** The splitter, equation by equation *)

Lemma split_fence_none s :
  search_fence s = None -> split_fence s = [s].
Proof.
  intros H. funelim (split_fence s); [congruence | reflexivity].
Qed.

Lemma split_fence_some s b m r :
  search_fence s = Some (b, m, r) ->
  split_fence s = b :: m :: split_fence r.
Proof.
  intros H0. funelim (split_fence s); [|congruence].
  match goal with
  | A : search_fence ?s = Some (?b, ?m, ?r),
    B : search_fence ?s = Some (?b0, ?m0, ?r0) |- _ =>
      rewrite A in B; injection B as <- <- <-
  end.
  reflexivity.
Qed.

(** Induction along the splitter's own recursion. *)
Lemma split_fence_ind (P : jsstring -> Prop) :
  (forall s, search_fence s = None -> P s) ->
  (forall s b m r, search_fence s = Some (b, m, r) -> P r -> P s) ->
  forall s, P s.
Proof.
  intros Hnone Hsome s.
  induction s as [s IH] using (induction_ltof1 _ (@length code_unit)).
  destruct (search_fence s) as [[[b m] r]|] eqn:E.
  - apply (Hsome _ _ _ _ E). apply IH. unfold ltof.
    eapply search_fence_shorter; eauto.
  - now apply Hnone.
Qed.

(** *** Greedy runs *)

Lemma span_sound p s a b :
  span p s = (a, b) -> s = a ++ b /\ forallb p a = true.
Proof.
  revert a b. induction s as [|c s IH]; intros a b; simpl.
  - now intros [= <- <-].
  - destruct (p c) eqn:E.
    + destruct (span p s) as [a' b'] eqn:E1. intros [= <- <-].
      destruct (IH _ _ eq_refl) as [-> Ha]. simpl. now rewrite E, Ha.
    + now intros [= <- <-].
Qed.

Lemma span_app p l c r :
  forallb p l = true -> p c = false -> span p (l ++ c :: r) = (l, c :: r).
Proof.
  intros Hl Hc. induction l as [|a l IH]; simpl in *.
  - now rewrite Hc.
  - apply andb_prop in Hl as [Ha Hl]. now rewrite Ha, IH.
Qed.

(** *** The matchers against the expressions they stand for *)

(** The lazy body stops at the earliest closing fence: no fence starts
    inside the body. *)
Lemma lazy_until_fence_spec s body rest :
  lazy_until_fence s = Some (body, rest) <->
  s = body ++ fence ++ rest
  /\ forall k, k < length body -> startsWith (skipn k s) fence = false.
Proof.
  split.
  - revert body rest. induction s as [|c s IH]; intros body rest.
    + simpl. discriminate.
    + intros H. split; [now apply lazy_until_fence_sound|].
      revert H. cbn [lazy_until_fence].
      destruct (startsWith (c :: s) fence) eqn:E.
      * intros [= <- <-] k Hk. simpl in Hk. lia.
      * destruct (lazy_until_fence s) as [[b r]|] eqn:E1; [|discriminate].
        intros [= <- <-] [|k] Hk; [exact E|].
        simpl in Hk. apply (IH _ _ eq_refl). lia.
  - intros [-> Hk]. induction body as [|c body IH].
    + reflexivity.
    + change ((c :: body) ++ fence ++ rest) with (c :: body ++ fence ++ rest)
        in *.
      cbn [lazy_until_fence].
      pose proof (Hk 0 (Nat.lt_0_succ _)) as H0. cbn [skipn] in H0.
      rewrite H0, IH; [reflexivity|].
      intros k Hlt. apply (Hk (S k)). simpl. lia.
Qed.

(** One attempt of the splitter's expression: the opening fence, a body
    in which no fence starts, and the closing fence. *)
Lemma exec_fence_spec s m rest :
  exec_fence s = Some (m, rest) <->
  exists body,
    m = fence ++ body ++ fence /\ s = m ++ rest
    /\ forall k, k < length body ->
                 startsWith (skipn k (body ++ fence ++ rest)) fence = false.
Proof.
  unfold exec_fence. split.
  - destruct (startsWith s fence) eqn:E; [|discriminate].
    destruct (lazy_until_fence (skipn 3 s)) as [[b r]|] eqn:E1; [|discriminate].
    intros [= <- <-]. exists b. apply lazy_until_fence_spec in E1 as [Hs Hk].
    apply startsWith_app in E. change (length fence) with 3 in E.
    rewrite Hs in E, Hk. repeat split; trivial.
    rewrite E. unfold fence. simpl. now rewrite <- app_assoc.
  - intros (body & -> & -> & Hk). rewrite <- !app_assoc.
    rewrite startsWith_prefix.
    change (skipn 3 (fence ++ body ++ fence ++ rest))
      with (body ++ fence ++ rest).
    assert (H : lazy_until_fence (body ++ fence ++ rest) = Some (body, rest))
      by now apply lazy_until_fence_spec.
    now rewrite H.
Qed.

(** The splitter takes the leftmost match: no attempt succeeds inside the
    text skipped. *)
Lemma search_fence_leftmost s b m r :
  search_fence s = Some (b, m, r) ->
  forall k, k < length b -> exec_fence (skipn k s) = None.
Proof.
  revert b m r. induction s as [|c s IH]; intros b m r.
  - simpl. discriminate.
  - cbn [search_fence].
    destruct (exec_fence (c :: s)) as [[m0 r0]|] eqn:E.
    + intros [= <- <- <-] k Hk. simpl in Hk. lia.
    + destruct (search_fence s) as [[[b1 m1] r1]|] eqn:E1; [|discriminate].
      intros [= <- <- <-] [|k] Hk; [exact E|].
      simpl in Hk. apply (IH _ _ _ eq_refl). lia.
Qed.

(** One attempt of the code expression: the fence, a language tag of word
    characters, a line feed, a source of at least one code unit, and the
    earliest closing fence after its first code unit. *)
Lemma exec_code_fence_spec s lang code :
  exec_code_fence s = Some (lang, code) <->
  exists c body rest,
    code = c :: body
    /\ s = fence ++ lang ++ LF :: c :: body ++ fence ++ rest
    /\ forallb isWord lang = true
    /\ forall k, k < length body ->
                 startsWith (skipn k (body ++ fence ++ rest)) fence = false.
Proof.
  unfold exec_code_fence. split.
  - destruct (startsWith s fence) eqn:E; [|discriminate].
    apply startsWith_app in E. change (length fence) with 3 in E.
    destruct (span isWord (skipn 3 s)) as [l s1] eqn:E1.
    apply span_sound in E1 as [Hs Hl].
    destruct s1 as [|c0 [|c1 s2]]; try discriminate.
    destruct (c0 =? LF)%N eqn:E0; [|discriminate].
    apply N.eqb_eq in E0. subst c0.
    destruct (lazy_until_fence s2) as [[b r]|] eqn:E2; [|discriminate].
    intros [= <- <-]. exists c1, b, r.
    apply lazy_until_fence_spec in E2 as [-> Hk].
    repeat split; trivial. now rewrite E, Hs.
  - intros (c & body & rest & -> & -> & Hl & Hk).
    rewrite startsWith_prefix.
    change (skipn 3 (fence ++ lang ++ LF :: c :: body ++ fence ++ rest))
      with (lang ++ LF :: c :: body ++ fence ++ rest).
    rewrite (span_app isWord lang LF _ Hl eq_refl), N.eqb_refl.
    assert (H : lazy_until_fence (body ++ fence ++ rest) = Some (body, rest))
      by now apply lazy_until_fence_spec.
    now rewrite H.
Qed.

(** *** Appending text never disturbs a match already found *)

Lemma startsWith_app_long s x p :
  length p <= length s -> startsWith (s ++ x) p = startsWith s p.
Proof.
  revert s. induction p as [|a p IH]; intros [|b s]; simpl; intros H;
    try reflexivity; try lia.
  rewrite IH by lia. reflexivity.
Qed.

Lemma skipn_app_long (s x : jsstring) n :
  n <= length s -> skipn n (s ++ x) = skipn n s ++ x.
Proof.
  intros H. rewrite skipn_app.
  replace (n - length s) with 0 by lia. reflexivity.
Qed.

Lemma startsWith_length s p : startsWith s p = true -> length p <= length s.
Proof.
  intros H. apply startsWith_app in H. rewrite H, length_app. lia.
Qed.

Lemma lazy_until_fence_app s x body rest :
  lazy_until_fence s = Some (body, rest) ->
  lazy_until_fence (s ++ x) = Some (body, rest ++ x).
Proof.
  revert body rest. induction s as [|c s IH]; intros body rest.
  - simpl. discriminate.
  - intros H. pose proof (lazy_until_fence_sound _ _ _ H) as Hs.
    assert (Hlen : length fence <= length (c :: s)).
    { rewrite Hs, !length_app. lia. }
    revert H. change ((c :: s) ++ x) with (c :: s ++ x).
    cbn [lazy_until_fence].
    change (c :: s ++ x) with ((c :: s) ++ x).
    rewrite (startsWith_app_long _ x _ Hlen).
    destruct (startsWith (c :: s) fence) eqn:E.
    + intros [= <- <-]. now rewrite skipn_app_long.
    + destruct (lazy_until_fence s) as [[b r]|]; [|discriminate].
      intros [= <- <-]. now rewrite (IH _ _ eq_refl).
Qed.

Lemma lazy_until_fence_exists x y :
  lazy_until_fence (x ++ fence ++ y) <> None.
Proof.
  induction x as [|c x IH].
  - simpl. discriminate.
  - change ((c :: x) ++ fence ++ y) with (c :: x ++ fence ++ y).
    cbn [lazy_until_fence].
    destruct (startsWith _ fence); [discriminate|].
    destruct (lazy_until_fence (x ++ fence ++ y)) as [[b r]|];
      [discriminate | contradiction].
Qed.

Lemma lazy_until_fence_None_skipn s k :
  lazy_until_fence s = None -> lazy_until_fence (skipn k s) = None.
Proof.
  revert s. induction k as [|k IH]; intros s H; [exact H|].
  destruct s as [|c s]; [exact H|].
  simpl skipn. apply IH. revert H. cbn [lazy_until_fence].
  destruct (startsWith (c :: s) fence); [discriminate|].
  now destruct (lazy_until_fence s) as [[b r]|].
Qed.

Lemma exec_fence_app s x m rest :
  exec_fence s = Some (m, rest) -> exec_fence (s ++ x) = Some (m, rest ++ x).
Proof.
  unfold exec_fence.
  destruct (startsWith s fence) eqn:E; [|discriminate].
  pose proof (startsWith_length _ _ E) as Hlen.
  rewrite startsWith_app_long, E by exact Hlen.
  rewrite skipn_app_long by exact Hlen.
  destruct (lazy_until_fence (skipn 3 s)) as [[b r]|] eqn:E1; [|discriminate].
  intros [= <- <-]. now rewrite (lazy_until_fence_app _ x _ _ E1).
Qed.

Lemma search_fence_app s x b m r :
  search_fence s = Some (b, m, r) ->
  search_fence (s ++ x) = Some (b, m, r ++ x).
Proof.
  revert b m r. induction s as [|c s IH]; intros b m r.
  - simpl. discriminate.
  - change ((c :: s) ++ x) with (c :: s ++ x).
    cbn [search_fence]. change (c :: s ++ x) with ((c :: s) ++ x).
    destruct (exec_fence (c :: s)) as [[m0 r0]|] eqn:E.
    + intros [= <- <- <-]. now rewrite (exec_fence_app _ x _ _ E).
    + destruct (search_fence s) as [[[b1 m1] r1]|] eqn:E1; [|discriminate].
      intros [= <- <- <-]. rewrite (IH _ _ _ eq_refl).
      destruct (search_fence_sound _ _ _ _ E1) as [Hs Hm].
      destruct (exec_fence_sound _ _ _ Hm) as [_ [body Hbody]].
      assert (Hnone : exec_fence ((c :: s) ++ x) = None); [|now rewrite Hnone].
      assert (Hlen : length fence <= length (c :: s)).
      { rewrite Hs, Hbody. simpl. rewrite !length_app. simpl. lia. }
      revert E. unfold exec_fence.
      rewrite startsWith_app_long by exact Hlen.
      destruct (startsWith (c :: s) fence); [|reflexivity].
      destruct (lazy_until_fence (skipn 3 (c :: s))) as [[b0 r0]|] eqn:E2;
        [discriminate|].
      exfalso.
      apply (lazy_until_fence_None_skipn _ (length b1 + 1)) in E2.
      rewrite skipn_skipn in E2.
      replace (length b1 + 1 + 3) with (S (length b1 + 3)) in E2 by lia.
      simpl skipn in E2. rewrite Hs, Hbody in E2.
      rewrite skipn_app, skipn_all2 in E2 by lia.
      replace (length b1 + 3 - length b1) with 3 in E2 by lia.
      unfold fence at 1 in E2. simpl in E2. rewrite <- app_assoc in E2.
      now apply lazy_until_fence_exists in E2.
Qed.

(** *** The shape of the list of parts *)

Ltac split_induction s :=
  pattern s; apply split_fence_ind; clear s.

Lemma split_fence_nonempty s : split_fence s <> [].
Proof.
  destruct (search_fence s) as [[[b m] r]|] eqn:E.
  - now rewrite (split_fence_some _ _ _ _ E).
  - now rewrite (split_fence_none _ E).
Qed.


(** The text after the last match holds no complete fence. *)
Lemma split_fence_last s : search_fence (last (split_fence s) []) = None.
Proof.
  split_induction s; [intros s H | intros s b m r H IH].
  - now rewrite (split_fence_none _ H).
  - rewrite (split_fence_some _ _ _ _ H).
    pose proof (split_fence_nonempty r) as Hne.
    cbn [last]. destruct (split_fence r) as [|u l]; [contradiction|].
    exact IH.
Qed.

(** Splitting an extended text: the parts before the last one stay, and the
    last part is split again together with the text appended. *)
Lemma split_fence_app s x :
  split_fence (s ++ x) =
  removelast (split_fence s) ++ split_fence (last (split_fence s) [] ++ x).
Proof.
  split_induction s; [intros s H | intros s b m r H IH].
  - now rewrite (split_fence_none _ H).
  - rewrite (split_fence_some _ _ _ _ (search_fence_app _ x _ _ _ H)), IH.
    rewrite (split_fence_some _ _ _ _ H).
    pose proof (split_fence_nonempty r) as Hne.
    cbn [last removelast]. destruct (split_fence r) as [|u l]; [contradiction|].
    reflexivity.
Qed.

(** The text between two matches (or before the first, or after the
    last) holds no complete fence. *)
Lemma search_fence_before s b m r :
  search_fence s = Some (b, m, r) -> search_fence b = None.
Proof.
  intros H. destruct (search_fence b) as [[[b' m'] r']|] eqn:E; [|reflexivity].
  exfalso. destruct (search_fence_sound _ _ _ _ H) as [Hs _].
  apply (search_fence_app _ (m ++ r) _ _ _) in E as E'.
  rewrite <- Hs, H in E'. injection E' as -> -> _.
  destruct (search_fence_sound _ _ _ _ E) as [Hb Hm].
  destruct (exec_fence_sound _ _ _ Hm) as [_ [body ->]].
  apply (f_equal (@length _)) in Hb. rewrite !length_app in Hb.
  simpl in Hb. lia.
Qed.

Lemma lazy_until_fence_cut body rest :
  lazy_until_fence (body ++ fence ++ rest) = Some (body, rest) ->
  lazy_until_fence (body ++ fence) = Some (body, []).
Proof.
  induction body as [|c body IH].
  - reflexivity.
  - change ((c :: body) ++ fence ++ rest) with (c :: body ++ fence ++ rest).
    change ((c :: body) ++ fence) with (c :: body ++ fence).
    cbn [lazy_until_fence].
    assert (Hsw : startsWith (c :: body ++ fence ++ rest) fence
                  = startsWith (c :: body ++ fence) fence).
    { rewrite (app_assoc body fence rest).
      apply (startsWith_app_long (c :: body ++ fence) rest).
      simpl. rewrite length_app. simpl. lia. }
    rewrite Hsw. destruct (startsWith (c :: body ++ fence) fence);
      [discriminate|].
    destruct (lazy_until_fence (body ++ fence ++ rest)) as [[b r]|];
      [|discriminate].
    intros [= -> ->]. now rewrite IH.
Qed.

Lemma search_fence_complete s b m r :
  search_fence s = Some (b, m, r) -> complete_fence m.
Proof.
  intros H. destruct (search_fence_sound _ _ _ _ H) as [_ Hm].
  destruct (exec_fence_sound _ _ _ Hm) as [_ [body Hbody]].
  unfold complete_fence. subst m. revert Hm. unfold exec_fence.
  rewrite <- !app_assoc. rewrite !startsWith_prefix.
  change (skipn 3 (fence ++ ?x)) with x.
  change (skipn 3 (fence ++ body ++ fence ++ r)) with (body ++ fence ++ r).
  change (skipn 3 (fence ++ body ++ fence)) with (body ++ fence).
  destruct (lazy_until_fence (body ++ fence ++ r)) as [[b0 r0]|] eqn:E;
    [|discriminate].
  intros [= Hb ->]. apply app_inv_tail in Hb. subst b0.
  now rewrite (lazy_until_fence_cut _ _ E).
Qed.


(** A closed text is empty or ends with a complete fence that is a part of
    its own, followed by the empty part. *)
Lemma closed_ends_with_fence s :
  closed s ->
  s = []
  \/ exists pre m,
       split_fence s = pre ++ [m; []] /\ complete_fence m
       /\ s = concat pre ++ m.
Proof.
  unfold closed. split_induction s; [intros s H | intros s b m r H IH].
  - rewrite (split_fence_none _ H). simpl. now left.
  - rewrite (split_fence_some _ _ _ _ H).
    pose proof (split_fence_nonempty r) as Hne.
    destruct (search_fence_sound _ _ _ _ H) as [Hs _].
    pose proof (search_fence_complete _ _ _ _ H) as Hm.
    cbn [last]. destruct (split_fence r) as [|u l] eqn:Er; [contradiction|].
    intros Hlast. right. destruct (IH Hlast) as [-> | (pre & m' & Hp & Hm' & Hr)].
    + rewrite split_fence_none in Er by reflexivity.
      injection Er as <- <-. exists [b], m. rewrite Hs. simpl.
      now rewrite !app_nil_r.
    + exists (b :: m :: pre), m'. rewrite Hp, Hs. repeat split; trivial.
      rewrite Hr at 1. simpl. now rewrite <- !app_assoc.
Qed.

(** *** Rendering one part *)


(** The language tag a code block is given holds word characters only. *)
Lemma match_code_fence_lang s lang code :
  match_code_fence s = Some (lang, code) -> forallb isWord lang = true.
Proof.
  induction s as [|c s IH]; cbn [match_code_fence]; unfold exec_code_fence.
  - simpl. discriminate.
  - destruct (startsWith (c :: s) fence); [|exact IH].
    destruct (span isWord (skipn 3 (c :: s))) as [l s1] eqn:E.
    apply span_sound in E as [_ Hl].
    destruct s1 as [|c0 [|c1 s2]]; try exact IH.
    destruct (c0 =? LF)%N; [|exact IH].
    destruct (lazy_until_fence s2) as [[b r]|]; [|exact IH].
    now intros [= <- <-].
Qed.


Lemma exec_code_fence_exec s r :
  exec_code_fence s = Some r -> exec_fence s <> None.
Proof.
  unfold exec_code_fence, exec_fence.
  destruct (startsWith s fence); [|discriminate].
  destruct (span isWord (skipn 3 s)) as [l s1] eqn:E.
  apply span_sound in E as [-> _].
  destruct s1 as [|c0 [|c1 s2]]; try discriminate.
  destruct (c0 =? LF)%N; [|discriminate].
  destruct (lazy_until_fence s2) as [[b r0]|] eqn:E; [|discriminate].
  intros _. apply lazy_until_fence_sound in E. subst s2.
  replace (l ++ c0 :: c1 :: b ++ fence ++ r0)
    with ((l ++ c0 :: c1 :: b) ++ fence ++ r0)
    by (now rewrite <- app_assoc).
  pose proof (lazy_until_fence_exists (l ++ c0 :: c1 :: b) r0) as Hex.
  destruct (lazy_until_fence ((l ++ c0 :: c1 :: b) ++ fence ++ r0))
    as [[b1 r1]|]; [discriminate | contradiction].
Qed.

(** Text without a complete fence never matches the code expression. *)
Lemma match_code_fence_none s :
  search_fence s = None -> match_code_fence s = None.
Proof.
  induction s as [|c s IH]; cbn [search_fence match_code_fence].
  - intros _. reflexivity.
  - destruct (exec_fence (c :: s)) as [[m r]|] eqn:E; [discriminate|].
    destruct (exec_code_fence (c :: s)) as [r|] eqn:E1.
    + now apply exec_code_fence_exec in E1.
    + destruct (search_fence s) as [[[b m] r]|]; [discriminate|].
      intros _. now apply IH.
Qed.

Lemma split_LF_nonempty s : split_LF s <> [].
Proof.
  destruct s as [|c s]; simpl; [discriminate|].
  destruct (c =? LF)%N; [discriminate|].
  destruct (split_LF s); discriminate.
Qed.

(** The paragraphs of a part, joined by line feeds, are the part. *)
Lemma join_split_LF s : join_LF (split_LF s) = s.
Proof.
  induction s as [|c s IH]; [reflexivity|].
  pose proof (split_LF_nonempty s) as Hne. simpl.
  destruct (c =? LF)%N eqn:E.
  - apply N.eqb_eq in E. subst c.
    destruct (split_LF s) as [|l ls]; [contradiction|].
    change (join_LF ([] :: l :: ls)) with ([] ++ LF :: join_LF (l :: ls)).
    now rewrite IH.
  - destruct (split_LF s) as [|l ls]; [contradiction|].
    destruct ls; simpl in *; now rewrite <- IH.
Qed.

(** Text without a complete fence is never rendered by [CodeBlock]; what
    is rendered shows the text as it is. *)
Lemma render_part_plain u :
  search_fence u = None ->
  is_code (render_part u) = false /\ raw_text (render_part u) = Some u.
Proof.
  intros H. unfold render_part.
  rewrite (match_code_fence_none _ H).
  destruct (startsWith u fence); simpl; [now split|].
  now rewrite join_split_LF.
Qed.

(** *** Segmentation of an extended text *)

Lemma removelast_map {A B} (f : A -> B) l :
  removelast (map f l) = map f (removelast l).
Proof.
  induction l as [|a [|b l] IH]; try reflexivity.
  change (f a :: removelast (map f (b :: l)) = f a :: map f (removelast (b :: l))).
  now rewrite IH.
Qed.

Lemma last_map {A B} (f : A -> B) l d :
  last (map f l) (f d) = f (last l d).
Proof.
  induction l as [|a [|b l] IH]; try reflexivity. exact IH.
Qed.

Lemma segment_length s : length (segment s) = length (split_fence s).
Proof. apply length_map. Qed.

Lemma segment_app s x :
  segment (s ++ x) =
  removelast (segment s) ++ segment (last (split_fence s) [] ++ x).
Proof.
  unfold segment. now rewrite split_fence_app, map_app, removelast_map.
Qed.

Lemma segment_nil : segment [] = [Fragment [[]]].
Proof. reflexivity. Qed.

(** A text whose last part is empty ends in an empty paragraph. *)
Lemma segment_closed s :
  closed s ->
  segment s = removelast (segment s) ++ [Fragment [[]]].
Proof.
  unfold closed. intros H. unfold segment.
  rewrite (@app_removelast_last jsstring _ [] (split_fence_nonempty s)) at 1.
  now rewrite map_app, H, removelast_map.
Qed.

(** A complete fence right after a closed text is split off as it is. *)
Lemma segment_fence s f rest :
  closed s -> complete_fence f ->
  segment (s ++ f ++ rest) = segment s ++ render_part f :: segment rest.
Proof.
  intros Hs Hf. rewrite segment_app, Hs. cbn [app].
  rewrite (segment_closed _ Hs) at 2. rewrite <- app_assoc. f_equal.
  unfold segment.
  apply (exec_fence_app _ rest) in Hf. cbn [app] in Hf.
  assert (H : search_fence (f ++ rest) = Some ([], f, rest)).
  { destruct (f ++ rest); cbn [search_fence]; now rewrite Hf. }
  now rewrite (split_fence_some _ _ _ _ H).
Qed.

Lemma closed_fence s f :
  closed s -> complete_fence f -> closed (s ++ f).
Proof.
  unfold closed. intros Hs Hf. rewrite split_fence_app, Hs. cbn [app].
  assert (H : search_fence f = Some ([], f, [])).
  { destruct f; cbn [search_fence]; now rewrite Hf. }
  rewrite (split_fence_some _ _ _ _ H).
  change ([] :: f :: split_fence []) with ([[]; f] ++ [@nil code_unit]).
  now rewrite app_assoc, last_last.
Qed.

Lemma streq_eq a b : streq a b = true <-> a = b.
Proof.
  revert b. induction a as [|x a IH]; intros [|y b]; simpl;
    try (split; [discriminate | congruence]); [tauto|].
  rewrite andb_true_iff, N.eqb_eq, IH. split; [intros []|intros [= ]];
    subst; auto.
Qed.

(** *** The image history *)

Lemma last_entry_app es image : last_entry (es ++ [image]) = Some image.
Proof.
  destruct es as [|e es]; [reflexivity|].
  simpl. f_equal. apply last_last.
Qed.

Lemma invariant_empty : invariant empty.
Proof. now split. Qed.

Lemma invariant_reset image h : invariant (reset image h).
Proof. now split. Qed.

Lemma invariant_push image h : invariant h -> invariant (push image h).
Proof.
  intros [Ho _]. split; simpl.
  - rewrite Ho. now destruct (entries h).
  - symmetry. apply last_entry_app.
Qed.

Lemma invariant_undo h : invariant h -> invariant (undo h).
Proof.
  intros [Ho Hc]. unfold undo, canUndo.
  destruct (Nat.ltb_spec 1 (length (entries h))) as [Hlen|Hlen]; [|now split].
  split; simpl; [|reflexivity].
  rewrite Ho. destruct (entries h) as [|a [|b l]]; simpl in *; try lia.
  reflexivity.
Qed.

(** Under the invariant, [currentImage] is missing exactly when no image
    is loaded. *)
Lemma current_none_iff_not_loaded h :
  invariant h -> (current h = None <-> isImageLoaded h = false).
Proof.
  intros [_ Hc]. rewrite Hc. unfold isImageLoaded.
  destruct (entries h); simpl; split; try reflexivity; discriminate.
Qed.

Lemma undo_entries_length h :
  canUndo h = true -> S (length (entries (undo h))) = length (entries h).
Proof.
  intros H. unfold undo. rewrite H. simpl.
  unfold canUndo in H. apply Nat.ltb_lt in H.
  rewrite removelast_firstn_len, length_firstn. lia.
Qed.

Lemma undo_original h : original (undo h) = original h.
Proof. unfold undo. now destruct (canUndo h). Qed.

Lemma undo_no_op h : canUndo h = false -> undo h = h.
Proof. intros H. unfold undo. now rewrite H. Qed.

(** After a reset and any pushes the history is the reset image followed
    by the pushed ones. *)
Lemma pushes_after_reset imgs img0 h :
  let h' := fold_left (fun a image => push image a) imgs (reset img0 h) in
  entries h' = img0 :: imgs /\ original h' = Some img0
  /\ current h' = Some (last imgs img0).
Proof.
  induction imgs as [|image imgs IH] using rev_ind; [now repeat split|].
  rewrite fold_left_app. cbn [fold_left].
  destruct IH as (He & Ho & _). repeat split; simpl.
  - now rewrite He.
  - now rewrite Ho.
  - now rewrite last_last.
Qed.

(** The rounds of [undo_until] are enough: it stops because nothing is
    left to undo. *)
Lemma undo_until_done rounds h :
  invariant h -> length (entries h) <= rounds ->
  canUndo (undo_until rounds h) = false
  /\ current (undo_until rounds h) = original (undo_until rounds h)
  /\ original (undo_until rounds h) = original h.
Proof.
  revert h. induction rounds as [|k IH]; intros h Hinv Hlen.
  - destruct Hinv as [Ho Hc]. simpl. unfold canUndo.
    destruct (entries h) as [|e es]; simpl in *; [|lia].
    repeat split. now rewrite Ho, Hc.
  - simpl. destruct (canUndo h) eqn:E.
    + pose proof (undo_entries_length _ E) as Hl.
      destruct (IH (undo h) (invariant_undo _ Hinv)) as (H1 & H2 & H3); [lia|].
      repeat split; trivial. now rewrite H3, undo_original.
    + destruct Hinv as [Ho Hc]. repeat split; trivial.
      rewrite Ho, Hc. unfold canUndo in E. apply Nat.ltb_ge in E.
      destruct (entries h) as [|a [|b l]]; simpl in *; try reflexivity; lia.
Qed.

(** * Worked examples *)

(** The answer [Hello], a fence tagged [html] and [Bye], each on lines of
    their own. *)
Example segment_hello_bye :
  segment (str "Hello" ++ LF :: str "```html" ++ LF :: str "<b>hi</b>"
             ++ LF :: str "```" ++ LF :: str "Bye")
  = [Fragment [str "Hello"; []];
     CodeBlockView (str "html") (str "<b>hi</b>" ++ [LF]) true;
     Fragment [[]; str "Bye"]].
Proof. vm_compute. reflexivity. Qed.

(** The empty text is one empty paragraph. *)
Example segment_empty : segment [] = [Fragment [[]]].
Proof. reflexivity. Qed.

(** A text that is only the beginning of a fence is shown as preformatted
    text. *)
Example segment_partial_fence :
  segment (str "```html" ++ LF :: str "<b>")
  = [PreCode (str "```html" ++ LF :: str "<b>")].
Proof. vm_compute. reflexivity. Qed.

(** Three backticks on one line are split off as well, and shown as
    preformatted text; the fence that follows is then no fence. *)
Example segment_inline_fence :
  segment (str "```a```b" ++ LF :: str "c```")
  = [Fragment [[]]; PreCode (str "```a```"); Fragment [str "b"; str "c```"]].
Proof. vm_compute. reflexivity. Qed.

(** The code expression is not anchored: with four backticks the language
    tag is read after the fourth. *)
Example segment_four_backticks :
  segment (str "````js" ++ LF :: str "code```")
  = [Fragment [[]]; CodeBlockView (str "js") (str "code") false;
     Fragment [[]]].
Proof. vm_compute. reflexivity. Qed.

(** A prompt of white space is blank; the magic prompts are not. *)
Example blank_prompt :
  isBlank (str "  " ++ [9; 10; 160; 8232]%N) = true
  /\ isBlank (str "Apply a cinematic color grade.") = false.
Proof. vm_compute. now split. Qed.

(** * The segmentation of a streamed answer *)




(** C2.  Every rendered part of a text other than the last one is the
    rendered part at the same position of any extension of the text. *)
Theorem segment_stable_under_extension
  (t s : jsstring) (i : nat) (Hi : S i < length (segment t)) :
  nth_error (segment (t ++ s)) i = nth_error (segment t) i.
Proof.
  rewrite segment_app.
  assert (Hlen : i < length (removelast (segment t))).
  { rewrite removelast_firstn_len, length_firstn. lia. }
  rewrite nth_error_app1 by exact Hlen.
  rewrite removelast_firstn_len, nth_error_firstn.
  destruct (Nat.ltb_spec i (Nat.pred (length (segment t)))); [reflexivity|lia].
Qed.

Lemma segment_stable_under_extension_witness :
  nth_error (segment (str "see ```js" ++ LF :: str "f()``` and ```py" ++ str "```")) 1
  = nth_error (segment (str "see ```js" ++ LF :: str "f()``` and ```p")) 1.
Proof.
  apply (segment_stable_under_extension
           (str "see ```js" ++ LF :: str "f()``` and ```p") (str "y```") 1).
  vm_compute. lia.
Defined.



(** *** Texts given piece by piece *)

Lemma fenced_block_complete f : fenced_block f -> complete_fence f.
Proof.
  intros (body & -> & Hk). apply exec_fence_spec. exists body.
  rewrite !app_nil_r. repeat split; trivial.
Qed.

Lemma search_fence_piece prose f rest :
  plain_before_fence prose -> complete_fence f ->
  search_fence (prose ++ f ++ rest) = Some (prose, f, rest).
Proof.
  intros Hprose Hf.
  destruct (exec_fence_sound _ _ _ Hf) as [_ [body Hbody]].
  apply (exec_fence_app _ rest) in Hf. cbn [app] in Hf.
  induction prose as [|c prose IH].
  - cbn [app]. destruct (f ++ rest); cbn [search_fence]; now rewrite Hf.
  - change ((c :: prose) ++ f ++ rest) with (c :: prose ++ f ++ rest).
    cbn [search_fence].
    assert (Hhead : exec_fence (c :: prose ++ f ++ rest) = None).
    { unfold exec_fence.
      pose proof (Hprose 0 (Nat.lt_0_succ _)) as H0. cbn [skipn] in H0.
      rewrite Hbody, <- !app_assoc.
      change (c :: prose ++ fence ++ body ++ fence ++ rest)
        with ((c :: prose) ++ fence ++ body ++ fence ++ rest).
      rewrite (app_assoc (c :: prose) fence).
      rewrite startsWith_app_long, H0; [reflexivity|].
      rewrite length_app. simpl. lia. }
    rewrite Hhead, IH; [reflexivity|].
    intros k Hk. apply (Hprose (S k)). simpl. lia.
Qed.

Lemma split_fence_piece prose f rest :
  plain_before_fence prose -> fenced_block f ->
  split_fence (prose ++ f ++ rest) = prose :: f :: split_fence rest.
Proof.
  intros Hprose Hf. apply split_fence_some.
  apply search_fence_piece; [exact Hprose | now apply fenced_block_complete].
Qed.

Lemma segment_pieces pieces tail :
  Forall fenced_piece pieces ->
  segment (text_of_pieces pieces tail)
  = flat_map (fun piece => [render_part (fst piece); render_part (snd piece)])
      pieces
    ++ segment tail.
Proof.
  unfold text_of_pieces.
  induction 1 as [|[prose f] pieces [Hprose Hf] _ IH]; [reflexivity|].
  cbn [map concat flat_map fst snd]. rewrite <- !app_assoc.
  unfold segment at 1. rewrite (split_fence_piece _ _ _ Hprose Hf).
  cbn [map app]. do 2 f_equal. exact IH.
Qed.

Lemma complete_fence_block f : complete_fence f -> fenced_block f.
Proof.
  intros H. apply exec_fence_spec in H as (body & Hb & _ & Hk).
  exists body. rewrite app_nil_r in Hk. now split.
Qed.

Lemma search_fence_plain s b m r :
  search_fence s = Some (b, m, r) -> plain_before_fence b.
Proof.
  intros H k Hk.
  destruct (startsWith (skipn k (b ++ fence)) fence) eqn:E; [|reflexivity].
  exfalso.
  destruct (search_fence_sound _ _ _ _ H) as [Hs Hm].
  destruct (exec_fence_sound _ _ _ Hm) as [_ [body Hbody]].
  pose proof (search_fence_leftmost _ _ _ _ H k Hk) as Hnone.
  assert (Hs' : s = (b ++ fence) ++ body ++ fence ++ r).
  { rewrite Hs, Hbody, <- !app_assoc. reflexivity. }
  assert (Hstart : startsWith (skipn k s) fence = true).
  { rewrite Hs', skipn_app_long by (rewrite length_app; lia).
    rewrite startsWith_app_long; [exact E|].
    rewrite length_skipn, length_app. simpl. lia. }
  unfold exec_fence in Hnone. rewrite Hstart in Hnone.
  destruct (lazy_until_fence (skipn 3 (skipn k s))) as [[b0 r0]|] eqn:El;
    [discriminate|].
  apply (lazy_until_fence_None_skipn _ (length b - k)) in El.
  rewrite !skipn_skipn in El.
  replace (length b - k + 3 + k) with (length (b ++ fence)) in El
    by (rewrite length_app; simpl; lia).
  rewrite Hs', skipn_app, skipn_all, Nat.sub_diag in El. cbn [skipn app] in El.
  now apply (lazy_until_fence_exists body r).
Qed.

(** Every text is given by pieces, with a tail that holds no complete
    fenced block. *)
Lemma text_has_pieces s :
  exists pieces tail,
    Forall fenced_piece pieces
    /\ s = text_of_pieces pieces tail
    /\ search_fence tail = None.
Proof.
  split_induction s; [intros s H | intros s b m r H IH].
  - exists [], s. repeat split; [constructor | exact H].
  - destruct IH as (pieces & tail & Hp & Hr & Ht).
    exists ((b, m) :: pieces), tail. repeat split; trivial.
    + constructor; [|exact Hp]. split.
      * eapply search_fence_plain; eauto.
      * apply complete_fence_block. eapply search_fence_complete; eauto.
    + destruct (search_fence_sound _ _ _ _ H) as [Hs _].
      unfold text_of_pieces in *. cbn [map concat fst snd].
      rewrite Hs, Hr, <- !app_assoc. reflexivity.
Qed.

Lemma nth_error_pieces {A B} (g h : A -> B) pieces rest i piece :
  nth_error pieces i = Some piece ->
  nth_error (flat_map (fun x => [g x; h x]) pieces ++ rest) (2 * i)
  = Some (g piece)
  /\ nth_error (flat_map (fun x => [g x; h x]) pieces ++ rest) (2 * i + 1)
     = Some (h piece).
Proof.
  revert i. induction pieces as [|x pieces IH]; intros [|i]; simpl;
    try discriminate.
  - now intros [= ->].
  - intros H. replace (i + S (i + 0)) with (S (2 * i)) by lia.
    replace (i + S (i + 0) + 1) with (S (2 * i + 1)) by lia.
    simpl. replace (i + (i + 0)) with (2 * i) by lia. now apply IH.
Qed.

Lemma flat_map_pairs_length {A B} (g h : A -> B) pieces :
  length (flat_map (fun x => [g x; h x]) pieces) = 2 * length pieces.
Proof.
  induction pieces as [|x pieces IH]; [reflexivity|]. simpl.
  rewrite IH. lia.
Qed.

(** C10.  A text is given piece by piece: each piece is some text in
    which no fence starts, possibly empty, and the complete fenced block
    that follows it; after the last piece comes the tail.  The rendered
    parts are then, piece by piece, the rendering of the text before the
    block and the rendering of the block, followed by the rendered parts
    of the tail.  So where a block stands at the start of the text or
    right after another block, the text before it being empty, an empty
    paragraph is rendered before it; and where the text ends with a block,
    the tail being empty, an empty paragraph is rendered after it.  Every
    text is given by such pieces, with a tail that holds no complete
    fenced block. *)
Theorem empty_paragraph_at_fence_boundaries
  (pieces : list (jsstring * jsstring)) (tail : jsstring)
  (Hpieces : Forall fenced_piece pieces) :
  let text := text_of_pieces pieces tail in
  segment text
  = flat_map (fun piece => [render_part (fst piece); render_part (snd piece)])
      pieces
    ++ segment tail
  /\ length (segment text) = 2 * length pieces + length (segment tail)
  /\ (forall i prose f,
        nth_error pieces i = Some (prose, f) ->
        nth_error (segment text) (2 * i) = Some (render_part prose)
        /\ nth_error (segment text) (2 * i + 1) = Some (render_part f))
  /\ (forall i f,
        nth_error pieces i = Some ([], f) ->
        nth_error (segment text) (2 * i) = Some (Fragment [[]]))
  /\ (tail = [] -> last (segment text) (PreCode []) = Fragment [[]])
  /\ (forall s,
        exists pieces' tail',
          Forall fenced_piece pieces'
          /\ s = text_of_pieces pieces' tail'
          /\ search_fence tail' = None).
Proof.
  intros text. subst text. rewrite (segment_pieces _ _ Hpieces).
  repeat apply conj; [| | | | | exact text_has_pieces].
  - reflexivity.
  - now rewrite length_app, flat_map_pairs_length.
  - intros i prose f H.
    apply (nth_error_pieces (fun piece => render_part (fst piece))
             (fun piece => render_part (snd piece)) _ _ _ _ H).
  - intros i f H.
    apply (nth_error_pieces (fun piece => render_part (fst piece))
             (fun piece => render_part (snd piece)) _ _ _ _ H).
  - intros ->. change (segment []) with [Fragment [[]]]. apply last_last.
Qed.

Lemma empty_paragraph_at_fence_boundaries_witness :
  segment (str "Hello ```a``````b```")
  = [Fragment [str "Hello "]; PreCode (str "```a```"); Fragment [[]];
     PreCode (str "```b```"); Fragment [[]]].
Proof.
  destruct (empty_paragraph_at_fence_boundaries
              [(str "Hello ", str "```a```"); ([], str "```b```")] [])
    as (H & _).
  - repeat constructor.
    + intros k Hk.
      do 6 (destruct k as [|k]; [reflexivity|]). simpl in Hk. lia.
    + exists (str "a"). split; [reflexivity|].
      intros k Hk. destruct k as [|k]; [reflexivity|]. simpl in Hk. lia.
    + intros k Hk. simpl in Hk. lia.
    + exists (str "b"). split; [reflexivity|].
      intros k Hk. destruct k as [|k]; [reflexivity|]. simpl in Hk. lia.
  - etransitivity; [|exact H]. reflexivity.
Defined.

(** * The image history *)

(** C8.  The invariant of the history holds for the empty history and
    every operation preserves it; [canUndo] is [entries.length > 1]; after
    [reset(img0)] and any pushes, [current] is the last image pushed and
    [original] is [img0]; [undo] changes nothing when [canUndo] is false;
    and [undo] repeated until [canUndo] is false leaves [current] equal to
    [original], after which a further [undo] keeps the length. *)
Theorem history_invariant_and_undo
  (h : History) (image img0 : ImageFile) (imgs : list ImageFile)
  (Hinv : invariant h) :
  (invariant empty /\ invariant (reset image h)
   /\ invariant (push image h) /\ invariant (undo h))
  /\ (entries h <> [] -> original h = hd_error (entries h))
  /\ current h = last_entry (entries h)
  /\ canUndo h = (1 <? length (entries h))
  /\ (let h' := fold_left (fun a i => push i a) imgs (reset img0 h) in
      current h' = Some (last imgs img0) /\ original h' = Some img0)
  /\ (canUndo h = false -> undo h = h)
  /\ (canUndo (undo_all h) = false
      /\ current (undo_all h) = original (undo_all h)
      /\ original (undo_all h) = original h
      /\ length (entries (undo (undo_all h)))
         = length (entries (undo_all h))).
Proof.
  destruct (undo_until_done (length (entries h)) h Hinv (le_n _))
    as (H1 & H2 & H3).
  split.
  { exact (conj invariant_empty
             (conj (invariant_reset image h)
                (conj (invariant_push image h Hinv) (invariant_undo h Hinv)))). }
  split; [intros _; apply Hinv|].
  split; [apply Hinv|].
  split; [reflexivity|].
  split; [split; apply (pushes_after_reset imgs img0 h)|].
  split; [apply undo_no_op|].
  repeat apply conj; trivial.
  unfold undo_all. now rewrite (undo_no_op _ H1).
Qed.

Lemma history_invariant_and_undo_witness :
  let a := {| mimeType := str "image/png"; data := str "AAAA" |} in
  let b := {| mimeType := str "image/png"; data := str "BBBB" |} in
  let h := push b (reset a empty) in
  current (undo_all h) = Some a /\ original (undo_all h) = Some a.
Proof.
  intros a b h.
  destruct (history_invariant_and_undo h a a [b])
    as (_ & _ & _ & _ & _ & _ & (_ & H2 & H3 & _)).
  - apply invariant_push, invariant_reset.
  - split; [rewrite H2|]; rewrite H3; reflexivity.
Defined.

(** * Chat: the conversation log *)

Lemma replace_last_app prev m f : replace_last (prev ++ [m]) f = prev ++ [f m].
Proof.
  induction prev as [|a prev IH]; [reflexivity|].
  change ((a :: prev) ++ [m]) with (a :: prev ++ [m]). cbn [replace_last].
  rewrite IH. now destruct prev.
Qed.

Lemma replace_last_length prev f : length (replace_last prev f) = length prev.
Proof.
  induction prev as [|a [|b prev] IH]; try reflexivity.
  change (S (length (replace_last (b :: prev) f)) = S (length (b :: prev))).
  now rewrite IH.
Qed.

(** A chunk touches nothing but the log, and in the log nothing but the
    rendered content of the last entry. *)
Lemma chunk_replaces_last chunk_text responseText st prev m :
  chatMessages st = prev ++ [m] ->
  handleChatSubmit_chunk chunk_text (responseText, st)
  = (responseText ++ chunk_text,
     setChatMessages
       (fun _ => prev ++ [with_rendered (responseText ++ chunk_text) m]) st).
Proof.
  intros H. unfold handleChatSubmit_chunk, setChatMessages.
  now rewrite H, replace_last_app.
Qed.

(** The chunks of one stream, one after the other: the last entry shows
    the segmentation of all the text received. *)
Lemma chunks_replace_last chunks responseText st prev m :
  chatMessages st = prev ++ [m] ->
  fold_left (fun run chunk => handleChatSubmit_chunk chunk run) chunks
    (responseText, st)
  = (responseText ++ concat chunks,
     setChatMessages
       (fun _ =>
          prev ++ [match chunks with
                   | [] => m
                   | _ => with_rendered (responseText ++ concat chunks) m
                   end]) st).
Proof.
  revert responseText st m.
  induction chunks as [|c chunks IH]; intros responseText st m H.
  - simpl. rewrite app_nil_r. f_equal. unfold setChatMessages.
    rewrite <- H. now destruct st.
  - cbn [fold_left]. rewrite (chunk_replaces_last _ _ _ _ _ H).
    rewrite (IH _ _ (with_rendered (responseText ++ c) m)) by reflexivity.
    cbn [concat]. rewrite <- app_assoc. f_equal.
    destruct chunks; cbn [concat]; rewrite ?app_nil_r; reflexivity.
Qed.

(** C4, as stated, fails: a chunk of the stream of the first session that
    arrives after [startNewChat] replaces the welcome entry of the new
    log. *)
Lemma late_chunk_alters_new_log :
  let st0 := fst (handleChatSubmit_send (str "draw") None
                    (startNewChat 1 initial)) in
  let run := handleChatSubmit_chunk (str "On ")
               (handleChatSubmit_open st0) in
  let fresh := startNewChat 2 (snd run) in
  let late := snd (handleChatSubmit_chunk (str "it.") (fst run, fresh)) in
  chatMessages fresh = [welcome]
  /\ chatMessages late
     = [{| role := model; parts := [TextPart welcomeMessage];
           renderedContent := Rendered_div [Fragment [str "On it."]] |}]
  /\ chatMessages late <> chatMessages fresh.
Proof.
  vm_compute. repeat split. discriminate.
Qed.

(** C4, as the code has it.  After [startNewChat], a chunk of a stream
    begun before it is not dropped: the log keeps its length and the
    session its handle, and the rendered content of the last entry, the
    welcome entry, becomes the segmentation of the text of the old
    stream.  Whatever the new log has become by the time the chunk
    arrives, it is the last entry that the chunk overwrites. *)
Theorem late_chunk_overwrites_last_entry
  (st : State) (session : Chat) (responseText chunk_text : jsstring) :
  let fresh := startNewChat session st in
  let late := snd (handleChatSubmit_chunk chunk_text (responseText, fresh)) in
  chatMessages late = [with_rendered (responseText ++ chunk_text) welcome]
  /\ chatMessages late <> chatMessages fresh
  /\ length (chatMessages late) = length (chatMessages fresh)
  /\ chatSessionRef late = Some session
  /\ forall prev m,
       chatMessages
         (snd (handleChatSubmit_chunk chunk_text
                 (responseText,
                  setChatMessages (fun _ => prev ++ [m]) fresh)))
       = prev ++ [with_rendered (responseText ++ chunk_text) m].
Proof.
  intros fresh late. subst late.
  rewrite (chunk_replaces_last chunk_text responseText fresh [] welcome)
    by reflexivity.
  repeat split; [simpl; discriminate|].
  intros prev m.
  now rewrite (chunk_replaces_last chunk_text responseText _ prev m).
Qed.

(** C7, as stated, fails: after a stream failed, the entry that was being
    filled still shows what was rendered, not the error paragraph. *)
Lemma failed_stream_keeps_entry :
  let st0 := fst (handleChatSubmit_send (str "draw") None
                    (startNewChat 1 initial)) in
  let st' := consume_stream [str "On "; str "it"]
               (Failed {| message := None |}) st0 in
  nth_error (chatMessages st') 2
  = Some {| role := model; parts := [];
            renderedContent := Rendered_div [Fragment [str "On it"]] |}
  /\ option_map renderedContent (nth_error (chatMessages st') 2)
     <> Some ErrorParagraph
  /\ nth_error (chatMessages st') 3 = Some errorMessage.
Proof.
  vm_compute. repeat split. discriminate.
Qed.

(** C7, as the code has it.  [st] is the state in which the stream opens.
    When the stream fails after some chunks, the entry that was being
    filled keeps the segmentation of the text received, a new entry with
    the error paragraph is appended after it, the error is shown, and the
    next submission is taken: it is sent to the same session. *)
Theorem stream_failure_appends_error_entry
  (st : State) (session : Chat) (chunks : list jsstring) (err : Thrown)
  (Hsession : chatSessionRef st = Some session) :
  let st' := consume_stream chunks (Failed err) st in
  chatMessages st'
  = chatMessages st
      ++ [match chunks with
          | [] => currentMessage
          | _ => with_rendered (concat chunks) currentMessage
          end; errorMessage]
  /\ isThinking st' = false
  /\ error st' = or_else (message err) (str "An error occurred in chat.")
  /\ chatSessionRef st' = Some session
  /\ forall message attachmentFile,
       snd (handleChatSubmit_send message attachmentFile st')
       = Some (session, message, attachmentFile)
       /\ chatMessages (fst (handleChatSubmit_send message attachmentFile st'))
          = chatMessages st'
              ++ [{| role := user; parts := [];
                     renderedContent :=
                       userRenderedContent message attachmentFile |}].
Proof.
  intros st'. subst st'. unfold consume_stream, handleChatSubmit_open.
  rewrite (chunks_replace_last chunks _ _ (chatMessages st) currentMessage)
    by reflexivity.
  cbn [app]. unfold handleChatSubmit_send. simpl.
  rewrite Hsession, <- app_assoc. simpl. repeat split.
  now rewrite <- (app_assoc (chatMessages st)).
Qed.

Lemma stream_failure_appends_error_entry_witness :
  let st := fst (handleChatSubmit_send (str "draw") None
                   (startNewChat 1 initial)) in
  map renderedContent
    (chatMessages (consume_stream [str "On "] (Failed {| message := None |}) st))
  = [Paragraph welcomeMessage; Paragraph (str "draw");
     Rendered_div [Fragment [str "On "]]; ErrorParagraph].
Proof.
  intros st.
  destruct (stream_failure_appends_error_entry
              st 1 [str "On "] {| message := None |} eq_refl) as (H & _).
  rewrite H. reflexivity.
Defined.

(** * Editing: [handleGenerate] and [handleGenerateMultiView] *)

Lemma or_else_nonempty m fallback : fallback <> [] -> or_else m fallback <> [].
Proof. intros H. destruct m as [[|c s]|]; simpl; trivial; discriminate. Qed.

(** C5, as stated, fails: with an image loaded and a prompt of blanks the
    handler returns without a call, and shows no error. *)
Lemma blank_prompt_shows_no_error :
  let image := {| mimeType := str "image/png"; data := str "AAAA" |} in
  let st := setPrompt (str "   ") (setHistory (reset image) initial) in
  isBlank (prompt st) = true
  /\ handleGenerate_call st = (st, None)
  /\ error (fst (handleGenerate_call st)) = [].
Proof.
  vm_compute. repeat split.
Qed.

(** C5, as the code has it.  The handler returns without calling the edit
    collaborator exactly when the prompt is blank or no image is loaded,
    and the history is then what it was.  With a blank prompt the return
    is silent: the state is unchanged and no error is shown.  The error is
    shown when the prompt is not blank and no image is loaded.  (No image
    is loaded: [currentImage] is missing, which under the invariant of the
    history is [isImageLoaded] being false.) *)
Theorem submit_edit_validation (st : State) :
  (snd (handleGenerate_call st) = None
   <-> isBlank (prompt st) = true \/ current (history st) = None)
  /\ (snd (handleGenerate_call st) = None ->
      history (fst (handleGenerate_call st)) = history st
      /\ forall editImage, handleGenerate editImage st
                           = fst (handleGenerate_call st))
  /\ (isBlank (prompt st) = true -> fst (handleGenerate_call st) = st)
  /\ (isBlank (prompt st) = false -> current (history st) = None ->
      fst (handleGenerate_call st)
      = setError (str "Please upload an image first to apply an edit.") st)
  /\ (invariant (history st) ->
      (current (history st) = None <-> isImageLoaded (history st) = false)).
Proof.
  pose proof (current_none_iff_not_loaded (history st)) as Hloaded.
  unfold handleGenerate, handleGenerate_call.
  destruct (isBlank (prompt st)) eqn:Eb;
    destruct (current (history st)) as [img|] eqn:Ec; simpl;
    repeat split; auto; try discriminate;
    try (intros [H|H]; discriminate); try (now apply Hloaded).
Qed.

(** C6.  With a prompt that is not blank and an image loaded, the edit
    collaborator is called with the prompt, the current image, the mask and
    the draft mode.  When it returns an image, that image and nothing else
    is pushed, the prompt is cleared and the clear-mask signal grows by
    one; when it fails, the error is shown and the history is what it
    was. *)
Theorem submit_edit_outcome
  (st : State) (currentImage : ImageFile)
  (Hprompt : isBlank (prompt st) = false)
  (Himage : current (history st) = Some currentImage) :
  snd (handleGenerate_call st)
  = Some {| req_prompt := prompt st; req_image := currentImage;
            req_mask := maskDataUrl st; req_draft := isDraftMode st |}
  /\ (forall editImage editedImage,
        editImage {| req_prompt := prompt st; req_image := currentImage;
                     req_mask := maskDataUrl st;
                     req_draft := isDraftMode st |}
        = Fulfilled editedImage ->
        let st' := handleGenerate editImage st in
        history st' = push editedImage (history st)
        /\ entries (history st') = entries (history st) ++ [editedImage]
        /\ prompt st' = []
        /\ clearMaskSignal st < clearMaskSignal st'
        /\ error st' = error st
        /\ isLoading st' = false)
  /\ (forall editImage err,
        editImage {| req_prompt := prompt st; req_image := currentImage;
                     req_mask := maskDataUrl st;
                     req_draft := isDraftMode st |}
        = Rejected err ->
        let st' := handleGenerate editImage st in
        history st' = history st
        /\ error st'
           = or_else (message err)
               (str "An unknown error occurred during editing.")
        /\ error st' <> []
        /\ prompt st' = prompt st
        /\ clearMaskSignal st' = clearMaskSignal st
        /\ isLoading st' = false).
Proof.
  unfold handleGenerate, handleGenerate_call. rewrite Hprompt, Himage.
  split; [reflexivity|]. split.
  - intros editImage editedImage H. rewrite H. simpl.
    repeat split. lia.
  - intros editImage err H. rewrite H. simpl.
    repeat split. apply or_else_nonempty. discriminate.
Qed.

Lemma submit_edit_outcome_witness :
  let image := {| mimeType := str "image/png"; data := str "AAAA" |} in
  let edited := {| mimeType := str "image/png"; data := str "BBBB" |} in
  let st := setPrompt (str "Make it blue") (setHistory (reset image) initial) in
  entries (history (handleGenerate (fun _ => Fulfilled edited) st))
  = [image; edited]
  /\ entries (history (handleGenerate
                         (fun _ => Rejected {| message := None |}) st))
     = [image].
Proof.
  intros image edited st.
  destruct (submit_edit_outcome st image eq_refl eq_refl) as (_ & Hok & Hko).
  split.
  - destruct (Hok (fun _ => Fulfilled edited) edited eq_refl) as (_ & H & _).
    exact H.
  - destruct (Hko (fun _ => Rejected {| message := None |})
                {| message := None |} eq_refl) as (H & _).
    rewrite H. reflexivity.
Defined.

(** C9.  With an image loaded, the multi-view collaborator is called with
    the prompt and the current image; whatever it does, the history is what
    it was; the images it returns are handed to the modal as they are, in
    the order returned, and four images are shown under the captions
    front, side, rear and overhead in that order.  With no image loaded the
    handler returns without a call and the state is what it was. *)
Theorem multi_view_pass_through
  (st : State) (currentImage : ImageFile)
  (Himage : current (history st) = Some currentImage) :
  snd (handleGenerateMultiView_call st) = Some (prompt st, currentImage)
  /\ (forall generateMultiView,
        history (handleGenerateMultiView generateMultiView st) = history st)
  /\ (forall generateMultiView images,
        generateMultiView (prompt st) currentImage = Fulfilled images ->
        multiViewImages (handleGenerateMultiView generateMultiView st)
        = images)
  /\ (forall generateMultiView front side rear overhead,
        generateMultiView (prompt st) currentImage
        = Fulfilled [front; side; rear; overhead] ->
        MultiViewModal (handleGenerateMultiView generateMultiView st)
        = Some [(front, str "Front View"); (side, str "Side View");
                (rear, str "Rear View"); (overhead, str "Overhead View")])
  /\ (forall st0 generateMultiView,
        current (history st0) = None ->
        handleGenerateMultiView_call st0 = (st0, None)
        /\ handleGenerateMultiView generateMultiView st0 = st0).
Proof.
  unfold handleGenerateMultiView, handleGenerateMultiView_call.
  rewrite Himage. split; [reflexivity|]. split; [|split; [|split]].
  - intros gen. now destruct (gen (prompt st) currentImage).
  - intros gen images H. now rewrite H.
  - intros gen front side rear overhead H. now rewrite H.
  - intros st0 gen H. now rewrite H.
Qed.

Lemma multi_view_pass_through_witness :
  let image := {| mimeType := str "image/png"; data := str "AAAA" |} in
  let view d := {| mimeType := str "image/png"; data := d |} in
  let st := setHistory (reset image) initial in
  let views := [view (str "F"); view (str "S"); view (str "R"); view (str "O")] in
  multiViewImages (handleGenerateMultiView (fun _ _ => Fulfilled views) st)
  = views.
Proof.
  intros image view st views.
  destruct (multi_view_pass_through st image eq_refl) as (_ & _ & H & _).
  exact (H (fun _ _ => Fulfilled views) views eq_refl).
Defined.

(** * Further properties of the code *)

Import AppRest.

(** ** The rendered parts of an answer (lines 229-238) *)

Lemma split_fence_alternates s :
  forall i p,
    nth_error (split_fence s) i = Some p ->
    if Nat.even i then search_fence p = None else complete_fence p.
Proof.
  split_induction s; [intros s H | intros s b m r H IH]; intros i p.
  - rewrite (split_fence_none _ H). destruct i as [|[|i]]; simpl;
      try discriminate. now intros [= <-].
  - rewrite (split_fence_some _ _ _ _ H). destruct i as [|[|i]].
    + simpl. intros [= <-]. eapply search_fence_before; eauto.
    + simpl. intros [= <-]. eapply search_fence_complete; eauto.
    + change (nth_error (b :: m :: split_fence r) (S (S i)))
        with (nth_error (split_fence r) i).
      change (Nat.even (S (S i))) with (Nat.even i). apply IH.
Qed.

Lemma split_fence_length_odd s : Nat.odd (length (split_fence s)) = true.
Proof.
  split_induction s; [intros s H | intros s b m r H IH].
  - now rewrite (split_fence_none _ H).
  - rewrite (split_fence_some _ _ _ _ H). exact IH.
Qed.

Lemma render_part_fenced p :
  startsWith p fence = true ->
  is_code (render_part p) = true \/ render_part p = PreCode p.
Proof.
  intros H. unfold render_part. rewrite H.
  destruct (match_code_fence p) as [[lang code]|]; [now left | now right].
Qed.

Lemma complete_fence_shape m :
  complete_fence m -> exists body, m = fence ++ body ++ fence.
Proof.
  intros H. now destruct (exec_fence_sound _ _ _ H) as [_ Hb].
Qed.

(** The rendered parts alternate.  Their number is odd; at the even
    positions, the first and the last among them, stands text that is
    never rendered by [CodeBlock] and is shown as it is; at the odd
    positions stands a complete fence, rendered by [CodeBlock] or as the
    preformatted text of the whole fence, never as paragraphs. *)
Theorem rendered_parts_alternate (s : jsstring) :
  Nat.odd (length (segment s)) = true
  /\ forall i r,
       nth_error (segment s) i = Some r ->
       (Nat.even i = true ->
        is_code r = false /\ raw_text r = nth_error (split_fence s) i)
       /\ (Nat.even i = false ->
           exists body,
             nth_error (split_fence s) i = Some (fence ++ body ++ fence)
             /\ (is_code r = true \/ r = PreCode (fence ++ body ++ fence))).
Proof.
  split; [rewrite segment_length; apply split_fence_length_odd|].
  intros i r. unfold segment. rewrite nth_error_map.
  destruct (nth_error (split_fence s) i) as [p|] eqn:E; [|discriminate].
  intros [= <-]. pose proof (split_fence_alternates s i p E) as Hp.
  split; intros Hi; rewrite Hi in Hp.
  - now destruct (render_part_plain _ Hp) as [H1 H2].
  - destruct (complete_fence_shape _ Hp) as [body ->]. exists body.
    split; [reflexivity|]. apply render_part_fenced, startsWith_prefix.
Qed.

(** *** Text without a fence *)

Lemma no_fence_search s : lazy_until_fence s = None -> search_fence s = None.
Proof.
  induction s as [|c s IH]; [reflexivity|]. intros H.
  pose proof (lazy_until_fence_None_skipn _ 1 H) as Ht. simpl in Ht.
  cbn [search_fence]. unfold exec_fence.
  cbn [lazy_until_fence] in H.
  destruct (startsWith (c :: s) fence); [discriminate|].
  now rewrite (IH Ht).
Qed.

Lemma no_fence_start s : lazy_until_fence s = None -> startsWith s fence = false.
Proof.
  destruct s as [|c s]; [reflexivity|]. cbn [lazy_until_fence].
  now destruct (startsWith (c :: s) fence).
Qed.

Lemma split_LF_length s :
  length (split_LF s) = S (length (filter (fun c => (c =? LF)%N) s)).
Proof.
  induction s as [|c s IH]; [reflexivity|]. simpl.
  destruct (c =? LF)%N; simpl; [now rewrite IH|].
  destruct (split_LF s) as [|l ls]; simpl in *; [discriminate | exact IH].
Qed.

Lemma split_LF_lines s :
  Forall (fun line => forallb (fun c => negb (c =? LF)%N) line = true)
    (split_LF s).
Proof.
  induction s as [|c s IH]; [now repeat constructor|]. simpl.
  destruct (c =? LF)%N eqn:E; [now constructor|].
  destruct (split_LF s) as [|l ls]; [now repeat constructor; simpl; rewrite E|].
  inversion IH as [|? ? Hl Hls]; subst. constructor; [|exact Hls].
  simpl. now rewrite E, Hl.
Qed.

(** A text that holds no three backticks in a row, single backticks
    included, is rendered as one group of paragraphs: one paragraph for
    every line, an empty line included, so one more than there are line
    feeds; no paragraph holds a line feed, and the paragraphs joined by
    line feeds are the text. *)
Theorem plain_text_is_paragraphs
  (s : jsstring) (Hplain : lazy_until_fence s = None) :
  segment s = [Fragment (split_LF s)]
  /\ length (split_LF s) = S (length (filter (fun c => (c =? LF)%N) s))
  /\ Forall (fun line => forallb (fun c => negb (c =? LF)%N) line = true)
       (split_LF s)
  /\ join_LF (split_LF s) = s.
Proof.
  repeat apply conj.
  - unfold segment. rewrite (split_fence_none _ (no_fence_search _ Hplain)).
    simpl. unfold render_part. now rewrite (no_fence_start _ Hplain).
  - apply split_LF_length.
  - apply split_LF_lines.
  - apply join_split_LF.
Qed.

Lemma plain_text_is_paragraphs_witness :
  segment (str "Use `npm test`." ++ LF :: LF :: str "Done")
  = [Fragment [str "Use `npm test`."; []; str "Done"]].
Proof.
  destruct (plain_text_is_paragraphs
              (str "Use `npm test`." ++ LF :: LF :: str "Done")) as (H & _).
  - vm_compute. reflexivity.
  - etransitivity; [exact H|]. vm_compute. reflexivity.
Defined.

(** *** Code blocks while the answer grows *)

Lemma segment_last_plain t :
  is_code (last (segment t) (Fragment [])) = false.
Proof.
  unfold segment.
  pose proof (split_fence_nonempty t) as Hne.
  rewrite (@app_removelast_last jsstring _ [] Hne), map_app.
  cbn [map]. rewrite last_last.
  now destruct (render_part_plain _ (split_fence_last t)).
Qed.

(** The number of rendered parts never decreases as text arrives. *)
Lemma segment_length_monotone t s :
  length (segment t) <= length (segment (t ++ s)).
Proof.
  assert (Hne : forall x, segment x <> []).
  { intros x. unfold segment. pose proof (split_fence_nonempty x).
    destruct (split_fence x); [contradiction | discriminate]. }
  rewrite segment_app, length_app.
  assert (H1 : length (segment t) = S (length (removelast (segment t)))).
  { rewrite (app_removelast_last (Fragment []) (Hne t)) at 1.
    rewrite length_app. simpl. lia. }
  pose proof (Hne (last (split_fence t) [] ++ s)) as H2.
  destruct (segment (last (split_fence t) [] ++ s)); [contradiction|].
  simpl. lia.
Qed.

(** A code block, once rendered, stays: at the position it has in the
    rendered parts of a text it stands, with the same language and source,
    in the rendered parts of every extension of the text.  And for every
    text, with or without a code block, the number of rendered parts never
    decreases as text arrives. *)
Theorem code_block_persists
  (t s : jsstring) (i : nat) (r : Rendered)
  (Hr : nth_error (segment t) i = Some r)
  (Hcode : is_code r = true) :
  nth_error (segment (t ++ s)) i = Some r
  /\ forall t' s', length (segment t') <= length (segment (t' ++ s')).
Proof.
  split; [|exact segment_length_monotone].
  pose proof (split_fence_nonempty t) as Hne.
  assert (Hne' : segment t <> []).
  { unfold segment. destruct (split_fence t); [contradiction | discriminate]. }
  rewrite segment_app.
  rewrite (app_removelast_last (Fragment []) Hne') in Hr.
  destruct (Nat.lt_ge_cases i (length (removelast (segment t)))) as [Hi|Hi].
  - rewrite nth_error_app1 in Hr by exact Hi.
    now rewrite nth_error_app1 by exact Hi.
  - exfalso. rewrite nth_error_app2 in Hr by exact Hi.
    destruct (i - length (removelast (segment t))) as [|[|k]];
      simpl in Hr; try discriminate.
    injection Hr as <-. rewrite segment_last_plain in Hcode. discriminate.
Qed.

Lemma code_block_persists_witness :
  nth_error (segment (str "```js" ++ LF :: str "f()``` then ```py" ++ LF
                        :: str "g()```")) 1
  = Some (CodeBlockView (str "js") (str "f()") false).
Proof.
  destruct (code_block_persists
              (str "```js" ++ LF :: str "f()``` then ```p")
              (str "y" ++ LF :: str "g()```") 1
              (CodeBlockView (str "js") (str "f()") false)) as (H & _).
  - vm_compute. reflexivity.
  - reflexivity.
  - etransitivity; [|exact H]. vm_compute. reflexivity.
Defined.

(** *** What a code block is made from *)

Ltac list_length := simpl; repeat (rewrite length_app; simpl).

Lemma skipn_length_app {A} (a b : list A) : skipn (length a) (a ++ b) = b.
Proof.
  rewrite skipn_app, skipn_all, Nat.sub_diag. reflexivity.
Qed.

Lemma match_code_fence_spec s lang code :
  match_code_fence s = Some (lang, code) ->
  exists pre c body rest,
    s = pre ++ fence ++ lang ++ LF :: c :: body ++ fence ++ rest
    /\ code = c :: body
    /\ forallb isWord lang = true.
Proof.
  induction s as [|a s IH]; cbn [match_code_fence].
  - unfold exec_code_fence. simpl. discriminate.
  - destruct (exec_code_fence (a :: s)) as [[l0 c0]|] eqn:E.
    + intros [= -> ->]. apply exec_code_fence_spec in E
        as (c & body & rest & Hc & Hs & Hl & _).
      exists [], c, body, rest. now repeat split.
    + intros H. destruct (IH H) as (pre & c & body & rest & Hs & Hc & Hl).
      exists (a :: pre), c, body, rest. rewrite Hs. now repeat split.
Qed.

Lemma complete_fence_inner m j :
  complete_fence m -> 3 <= j -> j + 3 < length m ->
  startsWith (skipn j m) fence = false.
Proof.
  intros Hm H3 Hj. apply exec_fence_spec in Hm as (body & Hb & _ & Hk).
  rewrite app_nil_r in Hk.
  assert (Hlen : length m = length body + 6).
  { rewrite Hb, !length_app. simpl. lia. }
  specialize (Hk (j - 3)). rewrite <- Hk by lia.
  replace j with ((j - 3) + 3) at 1 by lia.
  rewrite <- skipn_skipn. now rewrite Hb.
Qed.

(** Every code block of a rendered answer comes from a complete fence of
    the text, at an odd position: the fence is, after at most two more
    backticks, three backticks, the language, a line feed, the source and
    three backticks.  The language holds word characters only, the source
    is not empty and holds no three backticks in a row, and the Run button
    is shown exactly when the language, lower-cased, is html. *)
Theorem code_block_shape
  (s : jsstring) (i : nat) (lang code : jsstring) (html : bool)
  (Hblock : nth_error (segment s) i = Some (CodeBlockView lang code html)) :
  exists pre,
    nth_error (split_fence s) i
    = Some (pre ++ fence ++ lang ++ LF :: code ++ fence)
    /\ length pre <= 2
    /\ Forall (fun c => c = backtick) pre
    /\ Nat.even i = false
    /\ forallb isWord lang = true
    /\ code <> []
    /\ (forall k, startsWith (skipn k code) fence = false)
    /\ html = isHtml lang.
Proof.
  revert Hblock. unfold segment. rewrite nth_error_map.
  destruct (nth_error (split_fence s) i) as [p|] eqn:E; [|discriminate].
  intros [= Hr]. pose proof (split_fence_alternates s i p E) as Hp.
  destruct (Nat.even i) eqn:Hi.
  { destruct (render_part_plain _ Hp) as [H1 _].
    rewrite Hr in H1. discriminate. }
  revert Hr. unfold render_part.
  destruct (startsWith p fence) eqn:Hstart; [|discriminate].
  destruct (match_code_fence p) as [[l0 c0]|] eqn:Em; [|discriminate].
  intros [= -> -> <-].
  destruct (match_code_fence_spec _ _ _ Em)
    as (pre & c & body & rest & Hs & -> & Hl).
  (* the closing fence of the code expression is the end of the fence *)
  set (j0 := length pre + 3 + length lang + 2 + length body).
  assert (Hlen : length p = j0 + 3 + length rest).
  { rewrite Hs. list_length. unfold j0. lia. }
  assert (Hat : forall n x y, length x = n ->
                  p = x ++ y -> skipn n p = y).
  { intros n x y <- ->. apply skipn_length_app. }
  assert (Hj0 : skipn j0 p = fence ++ rest).
  { apply (Hat j0 (pre ++ fence ++ lang ++ LF :: c :: body)).
    - list_length. unfold j0. lia.
    - rewrite Hs. rewrite <- ?app_assoc. simpl.
      rewrite <- ?app_assoc. reflexivity. }
  assert (Hrest : rest = []).
  { destruct rest as [|x rest]; [reflexivity|]. exfalso.
    assert (Hf : startsWith (skipn j0 p) fence = false).
    { apply complete_fence_inner; trivial; unfold j0; simpl in Hlen; lia. }
    rewrite Hj0, startsWith_prefix in Hf. discriminate. }
  subst rest. rewrite app_nil_r in Hs. simpl in Hlen.
  assert (Hpre : length pre <= 2).
  { destruct (Nat.le_gt_cases (length pre) 2) as [|Hgt]; [assumption|].
    exfalso.
    assert (Hf : startsWith (skipn (length pre) p) fence = false).
    { apply complete_fence_inner; trivial; unfold j0 in Hlen; lia. }
    rewrite Hs, skipn_length_app, startsWith_prefix in Hf. discriminate. }
  exists pre. repeat apply conj; trivial.
  - now rewrite Hs.
  - apply startsWith_app in Hstart. rewrite Hs in Hstart at 1.
    destruct pre as [|a [|b [|x pre]]]; simpl in Hpre; try lia.
    + constructor.
    + injection Hstart as -> _. now repeat constructor.
    + injection Hstart as -> -> _. now repeat constructor.
  - discriminate.
  - intros k. destruct (startsWith (skipn k (c :: body)) fence) eqn:Hk;
      [exfalso | reflexivity].
    pose proof (startsWith_length _ _ Hk) as Hlk.
    rewrite length_skipn in Hlk.
    change (length fence) with 3 in Hlk.
    change (length (c :: body)) with (S (length body)) in Hlk.
    set (j := length pre + 3 + length lang + 1 + k).
    assert (Hf : startsWith (skipn j p) fence = false).
    { apply complete_fence_inner; trivial; unfold j, j0 in *; lia. }
    assert (Hj : skipn j p = skipn k (c :: body) ++ fence).
    { unfold j.
      rewrite (Nat.add_comm _ k), <- skipn_skipn.
      rewrite (Hat _ (pre ++ fence ++ lang ++ [LF]) ((c :: body) ++ fence)).
      - apply skipn_app_long. simpl. lia.
      - list_length. lia.
      - rewrite Hs. rewrite <- ?app_assoc. simpl.
        rewrite <- ?app_assoc. reflexivity. }
    rewrite Hj, startsWith_app_long, Hk in Hf
      by (rewrite length_skipn; exact Hlk).
    discriminate.
Qed.

Lemma code_block_shape_witness :
  exists pre,
    nth_error (split_fence (str "Try ````html" ++ LF :: str "<p>``` now")) 1
    = Some (pre ++ fence ++ str "html" ++ LF :: str "<p>" ++ fence)
    /\ length pre <= 2.
Proof.
  assert (Hb : nth_error
                 (segment (str "Try ````html" ++ LF :: str "<p>``` now")) 1
               = Some (CodeBlockView (str "html") (str "<p>") true))
    by (vm_compute; reflexivity).
  destruct (code_block_shape _ _ _ _ _ Hb) as (pre & H & Hlen & _).
  exists pre. now split.
Defined.

(** *** The Run button (lines 262, 276 and 307) *)

Lemma segment_code_block_match s i lang code html :
  nth_error (segment s) i = Some (CodeBlockView lang code html) ->
  exists p,
    nth_error (split_fence s) i = Some p
    /\ match_code_fence p = Some (lang, code)
    /\ html = isHtml lang.
Proof.
  unfold segment. rewrite nth_error_map.
  destruct (nth_error (split_fence s) i) as [p|]; [|discriminate].
  intros [= Hr]. exists p. revert Hr. unfold render_part.
  destruct (startsWith p fence); [|discriminate].
  destruct (match_code_fence p) as [[l0 c0]|]; [|discriminate].
  now intros [= -> -> <-].
Qed.

(** Every Run button of a rendered answer opens the preview: the rendered
    part is a code block whose language, lower-cased, is html, its source
    is what the click hands to [setCodeToRun], and since the source of a
    code block is never empty the preview is shown, with that source as
    its document. *)
Theorem run_button_opens_preview
  (s : jsstring) (i : nat) (r : Rendered) (code : jsstring)
  (Hr : nth_error (segment s) i = Some r)
  (Hrun : run_button r = Some code) :
  CodeRunnerModal (Some code) = Some code
  /\ exists lang,
       r = CodeBlockView lang code true
       /\ toLowerCase lang = str "html".
Proof.
  destruct r as [part | lang c html | lines]; try discriminate.
  destruct html; [|discriminate]. injection Hrun as ->.
  destruct (segment_code_block_match _ _ _ _ _ Hr) as (p & _ & Hm & Hh).
  destruct (match_code_fence_spec _ _ _ Hm) as (_ & c & body & _ & _ & -> & _).
  split; [reflexivity|]. exists lang. split; [reflexivity|].
  apply streq_eq. symmetry. exact Hh.
Qed.

Lemma run_button_opens_preview_witness :
  CodeRunnerModal (Some (str "<h1>Hi</h1>")) = Some (str "<h1>Hi</h1>").
Proof.
  assert (Hr : nth_error
                 (segment (str "Here:" ++ LF :: str "```Html" ++ LF
                             :: str "<h1>Hi</h1>```")) 1
               = Some (CodeBlockView (str "Html") (str "<h1>Hi</h1>") true))
    by (vm_compute; reflexivity).
  exact (proj1 (run_button_opens_preview _ _ _ _ Hr eq_refl)).
Defined.

(** ** The chat handlers (lines 205-252) *)

(** What a stream leaves in the log depends on the text received, not on
    how the text was cut into chunks: two streams of at least one chunk
    each that carry the same text and end the same way leave the same
    state.  A stream that completes leaves one new entry, with the
    segmentation of the whole text, and nothing else changed but
    [isThinking]; a stream that completes without a chunk leaves the
    entry empty. *)
Theorem stream_depends_on_text_only
  (st : State) (chunks chunks' : list jsstring) (ending : StreamEnd)
  (Hne : chunks <> []) (Hne' : chunks' <> [])
  (Htext : concat chunks = concat chunks') :
  consume_stream chunks ending st = consume_stream chunks' ending st
  /\ consume_stream chunks Completed st
     = setIsThinking false
         (setChatMessages
            (fun prev => prev ++ [with_rendered (concat chunks) currentMessage])
            st)
  /\ consume_stream [] Completed st
     = setIsThinking false
         (setChatMessages (fun prev => prev ++ [currentMessage]) st).
Proof.
  unfold consume_stream, handleChatSubmit_open.
  rewrite !(chunks_replace_last _ _ _ (chatMessages st) currentMessage)
    by reflexivity.
  destruct chunks as [|c chunks]; [contradiction|].
  destruct chunks' as [|c' chunks']; [contradiction|].
  rewrite Htext. repeat split.
Qed.

Lemma stream_depends_on_text_only_witness :
  consume_stream [str "```js"; LF :: str "f()`"; str "``"] Completed
    (startNewChat 1 initial)
  = consume_stream [str "```js" ++ LF :: str "f()```"] Completed
      (startNewChat 1 initial).
Proof.
  apply (stream_depends_on_text_only (startNewChat 1 initial)
           [str "```js"; LF :: str "f()`"; str "``"]
           [str "```js" ++ LF :: str "f()```"] Completed).
  - discriminate.
  - discriminate.
  - reflexivity.
Defined.

(** When [sendChatMessage] itself fails, no entry for the answer was
    appended yet: the log gains the entry of the user and, right after it,
    the error entry; the error is shown and [isThinking] is false again.
    Without a chat session the submission does nothing at all. *)
Theorem failed_send_appends_error_entry
  (st : State) (session : Chat) (message : jsstring)
  (attachmentFile : option File) (err : Thrown)
  (Hsession : chatSessionRef st = Some session) :
  let st' := handleChatSubmit_catch err
               (fst (handleChatSubmit_send message attachmentFile st)) in
  snd (handleChatSubmit_send message attachmentFile st)
  = Some (session, message, attachmentFile)
  /\ chatMessages st'
     = chatMessages st
         ++ [{| role := user; parts := [];
                renderedContent :=
                  userRenderedContent message attachmentFile |};
             errorMessage]
  /\ isThinking st' = false
  /\ ErrorToast st'
     = Some (or_else (App.message err) (str "An error occurred in chat."))
  /\ history st' = history st
  /\ forall st0,
       chatSessionRef st0 = None ->
       handleChatSubmit_send message attachmentFile st0 = (st0, None).
Proof.
  unfold handleChatSubmit_send. rewrite Hsession. simpl.
  repeat split.
  - now rewrite <- app_assoc.
  - unfold ErrorToast. simpl.
    pose proof (or_else_nonempty (App.message err)
                  (str "An error occurred in chat.")) as Hn.
    destruct (or_else (App.message err) (str "An error occurred in chat."));
      [exfalso; apply Hn; [discriminate | reflexivity] | reflexivity].
  - intros st0 H0. now rewrite H0.
Qed.

Lemma failed_send_appends_error_entry_witness :
  map renderedContent
    (chatMessages
       (handleChatSubmit_catch {| App.message := Some (str "offline") |}
          (fst (handleChatSubmit_send (str "hi") None
                  (startNewChat 1 initial)))))
  = [Paragraph welcomeMessage; Paragraph (str "hi"); ErrorParagraph].
Proof.
  destruct (failed_send_appends_error_entry
              (startNewChat 1 initial) 1 (str "hi") None
              {| App.message := Some (str "offline") |} eq_refl)
    as (_ & H & _).
  rewrite H. reflexivity.
Defined.

(** The rest of a stream that [startNewChat] superseded lands in the new
    log: its chunks overwrite the rendered content of the welcome entry
    with the segmentation of all the text of the old stream, and when it
    fails its error entry is appended to the new log and its error is
    shown; when it completes, nothing more is changed. *)
Theorem superseded_stream_lands_in_new_log
  (st : State) (session : Chat) (responseText : jsstring)
  (chunks : list jsstring) (err : Thrown) :
  let fresh := startNewChat session st in
  let rest :=
    snd (fold_left (fun run chunk => handleChatSubmit_chunk chunk run)
           chunks (responseText, fresh)) in
  let last_entry :=
    match chunks with
    | [] => welcome
    | _ => with_rendered (responseText ++ concat chunks) welcome
    end in
  chatMessages (handleChatSubmit_catch err rest) = [last_entry; errorMessage]
  /\ error (handleChatSubmit_catch err rest)
     = or_else (App.message err) (str "An error occurred in chat.")
  /\ chatMessages (handleChatSubmit_finally rest) = [last_entry]
  /\ chatSessionRef (handleChatSubmit_catch err rest) = Some session.
Proof.
  intros fresh rest last_entry. subst rest.
  rewrite (chunks_replace_last chunks responseText fresh [] welcome)
    by reflexivity.
  repeat split.
Qed.

(** ** Upload and download (lines 109-125 and 162-170) *)

Lemma split_on_none sep s :
  forallb (fun c => negb (c =? sep)%N) s = true -> split_on sep s = [s].
Proof.
  induction s as [|c s IH]; [reflexivity|]. simpl.
  intros H. apply andb_prop in H as [Hc Hs].
  destruct (c =? sep)%N; [discriminate|]. now rewrite (IH Hs).
Qed.

Lemma split_on_first sep a b :
  forallb (fun c => negb (c =? sep)%N) a = true ->
  split_on sep (a ++ sep :: b) = a :: split_on sep b.
Proof.
  induction a as [|c a IH]; simpl.
  - intros _. now rewrite N.eqb_refl.
  - intros H. apply andb_prop in H as [Hc Ha].
    destruct (c =? sep)%N; [discriminate|]. now rewrite (IH Ha).
Qed.

Lemma data_of_url prefix payload :
  no_comma prefix = true -> no_comma payload = true ->
  nth_error (split_on comma (prefix ++ comma :: payload)) 1 = Some payload.
Proof.
  intros Hp Hd. rewrite (split_on_first _ _ _ Hp).
  now rewrite (split_on_none _ _ Hd).
Qed.

(** An upload replaces the history.  For a file whose type begins with
    [image/], read as a data URL whose payload follows its only comma, the
    history afterwards is the one new image, with the type of the file
    and the payload as its data, whatever the history was: nothing is left
    to undo and the original is the new image; the overlay is gone and the
    prompt and the error text are untouched.  When the read fails the
    history is what it was and the error is shown.  A file of another type
    is refused before it is read: only the error text changes. *)
Theorem upload_replaces_history
  (st : State) (file : File) (prefix payload : jsstring)
  (Htype : startsWith (file_type file) (str "image/") = true)
  (Hprefix : no_comma prefix = true)
  (Hpayload : no_comma payload = true) :
  let newImage := {| mimeType := file_type file; data := payload |} in
  snd (handleImageUpload_call file st) = Some file
  /\ (forall fileToDataURL,
        fileToDataURL file = Fulfilled (prefix ++ comma :: payload) ->
        exists st',
          handleImageUpload fileToDataURL file st = Some st'
          /\ entries (history st') = [newImage]
          /\ current (history st') = Some newImage
          /\ original (history st') = Some newImage
          /\ canUndo (history st') = false
          /\ LoadingOverlay st' = None
          /\ error st' = error st
          /\ prompt st' = prompt st)
  /\ (forall fileToDataURL err,
        fileToDataURL file = Rejected err ->
        exists st',
          handleImageUpload fileToDataURL file st = Some st'
          /\ history st' = history st
          /\ ErrorToast st' = Some (str "Could not process the uploaded file.")
          /\ LoadingOverlay st' = None)
  /\ (forall other fileToDataURL,
        startsWith (file_type other) (str "image/") = false ->
        handleImageUpload_call other st
        = (setError (str "Please upload a valid image file.") st, None)
        /\ handleImageUpload fileToDataURL other st
           = Some (setError (str "Please upload a valid image file.") st)).
Proof.
  intros newImage. unfold handleImageUpload, handleImageUpload_call.
  rewrite Htype. split; [reflexivity|]. split; [|split].
  - intros reader H. rewrite H. unfold handleImageUpload_settle.
    rewrite (data_of_url _ _ Hprefix Hpayload). eexists. split; [reflexivity|].
    repeat split.
  - intros reader err H. rewrite H. eexists. split; [reflexivity|].
    repeat split.
  - intros other reader H. now rewrite H.
Qed.

Lemma upload_replaces_history_witness :
  let png := {| file_type := str "image/png"; file_name := str "a.png" |} in
  option_map (fun st => entries (history st))
    (handleImageUpload
       (fun _ => Fulfilled (str "data:image/png;base64,iVBORw0KGgo="))
       png initial)
  = Some [{| mimeType := str "image/png"; data := str "iVBORw0KGgo=" |}].
Proof.
  intros png.
  destruct (upload_replaces_history initial png
              (str "data:image/png;base64") (str "iVBORw0KGgo=")
              eq_refl eq_refl eq_refl) as (_ & H & _).
  destruct (H (fun _ => Fulfilled (str "data:image/png;base64,iVBORw0KGgo="))
              eq_refl) as (st' & Hst & He & _).
  rewrite Hst. simpl. now rewrite He.
Defined.

(** Upload, then download: for a file whose type begins with [image/] and
    holds no comma, read as [data:], the type, [;base64,] and a payload
    without a comma, the link of the download right after the upload is
    the data URL that was read, under the name [edited-image.png].
    Without an image the download does nothing. *)
Theorem download_gives_back_upload
  (st : State) (file : File) (payload : jsstring)
  (fileToDataURL : File -> Settled jsstring)
  (Htype : startsWith (file_type file) (str "image/") = true)
  (Hcomma : no_comma (file_type file) = true)
  (Hpayload : no_comma payload = true)
  (Hread : fileToDataURL file
           = Fulfilled (str "data:" ++ file_type file ++ str ";base64,"
                          ++ payload)) :
  (exists st',
     handleImageUpload fileToDataURL file st = Some st'
     /\ handleDownload st'
        = Some (str "data:" ++ file_type file ++ str ";base64," ++ payload,
                str "edited-image.png"))
  /\ forall st0, current (history st0) = None -> handleDownload st0 = None.
Proof.
  split; [|intros st0 H0; unfold handleDownload; now rewrite H0].
  unfold handleImageUpload, handleImageUpload_call.
  rewrite Htype, Hread. unfold handleImageUpload_settle.
  assert (Hurl : str "data:" ++ file_type file ++ str ";base64," ++ payload
                 = (str "data:" ++ file_type file ++ str ";base64")
                     ++ comma :: payload).
  { rewrite <- !app_assoc. reflexivity. }
  assert (Hd : nth_error
                 (split_on comma
                    (str "data:" ++ file_type file ++ str ";base64,"
                       ++ payload)) 1 = Some payload).
  { rewrite Hurl. apply data_of_url; trivial.
    unfold no_comma. rewrite !forallb_app, !andb_true_iff.
    repeat split; try reflexivity; exact Hcomma. }
  rewrite Hd. eexists. split; reflexivity.
Qed.

Lemma download_gives_back_upload_witness :
  let jpg := {| file_type := str "image/jpeg"; file_name := str "a.jpg" |} in
  exists st',
    handleImageUpload (fun _ => Fulfilled (str "data:image/jpeg;base64,/9j/4A=="))
      jpg initial = Some st'
    /\ handleDownload st'
       = Some (str "data:image/jpeg;base64,/9j/4A==", str "edited-image.png").
Proof.
  intros jpg.
  exact (proj1 (download_gives_back_upload initial jpg (str "/9j/4A==")
                  (fun _ => Fulfilled (str "data:image/jpeg;base64,/9j/4A=="))
                  eq_refl eq_refl eq_refl eq_refl)).
Defined.

(** ** Quick edits and edits in flight (lines 127-159) *)








(** [handleGenerate] does not look at [isLoading].  A second submission
    made while the first is in flight is not refused: the edit
    collaborator is called again, with the same request, as the prompt
    and the current image are still the same.  When the two calls succeed
    both images are pushed, in the order in which the calls settle, and
    the clear-mask signal has grown by two; and once the first has
    settled the overlay is gone although the second is still in flight. *)
Theorem overlapping_edits_are_both_pushed
  (st : State) (currentImage first second : ImageFile)
  (Hprompt : isBlank (prompt st) = false)
  (Himage : current (history st) = Some currentImage) :
  let request :=
    {| req_prompt := prompt st; req_image := currentImage;
       req_mask := maskDataUrl st; req_draft := isDraftMode st |} in
  let st1 := fst (handleGenerate_call st) in
  let st2 := fst (handleGenerate_call st1) in
  let st3 := handleGenerate_settle (Fulfilled first) st2 in
  let st4 := handleGenerate_settle (Fulfilled second) st3 in
  LoadingOverlay st1 <> None
  /\ snd (handleGenerate_call st) = Some request
  /\ snd (handleGenerate_call st1) = Some request
  /\ LoadingOverlay st3 = None
  /\ entries (history st4) = entries (history st) ++ [first; second]
  /\ current (history st4) = Some second
  /\ clearMaskSignal st4 = clearMaskSignal st + 2.
Proof.
  intros request st1 st2 st3 st4.
  subst st4 st3 st2 st1. unfold handleGenerate_call.
  rewrite Hprompt, Himage. simpl. rewrite Hprompt, Himage. simpl.
  repeat split; try discriminate.
  - now rewrite <- app_assoc.
  - lia.
Qed.

Lemma overlapping_edits_are_both_pushed_witness :
  let image := {| mimeType := str "image/png"; data := str "AAAA" |} in
  let a := {| mimeType := str "image/png"; data := str "BBBB" |} in
  let b := {| mimeType := str "image/png"; data := str "CCCC" |} in
  let st := setPrompt (str "bluer") (setHistory (reset image) initial) in
  entries
    (history
       (handleGenerate_settle (Fulfilled b)
          (handleGenerate_settle (Fulfilled a)
             (fst (handleGenerate_call (fst (handleGenerate_call st)))))))
  = [image; a; b].
Proof.
  intros image a b st.
  destruct (overlapping_edits_are_both_pushed st image a b eq_refl eq_refl)
    as (_ & _ & _ & _ & H & _).
  exact H.
Defined.

(** ** The multi-view modal (lines 47-64, 172-184 and 306) *)

Lemma captioned_images index images :
  map fst (captioned index images) = images.
Proof.
  revert index. induction images as [|img images IH]; intros index;
    [reflexivity|]. simpl. now rewrite IH.
Qed.

Lemma captioned_captions index images i :
  i < length images ->
  nth_error (map snd (captioned index images)) i
  = Some (view_caption (index + i)).
Proof.
  revert index i. induction images as [|img images IH]; intros index i Hi.
  - simpl in Hi. lia.
  - destruct i as [|i]; simpl.
    + now rewrite Nat.add_0_r.
    + rewrite IH by (simpl in Hi; lia). f_equal. f_equal. lia.
Qed.

(** The modal shows what the collaborator returned, however many images
    that is.  With an image loaded the collaborator is called with the
    prompt as it is, blank or not.  An empty result shows no modal and no
    error; any other result is shown whole and in order, the image at
    index [i] under the caption of index [i], which from the fifth image
    on is [View] and the number of the image.  When the call fails the
    images shown before are kept and the error is shown. *)
Theorem multi_view_shows_what_returns
  (st : State) (currentImage : ImageFile) (images : list ImageFile)
  (generateMultiView : jsstring -> ImageFile -> Settled (list ImageFile))
  (Himage : current (history st) = Some currentImage)
  (Hresult : generateMultiView (prompt st) currentImage = Fulfilled images) :
  let st' := handleGenerateMultiView generateMultiView st in
  MultiViewModal st'
  = match images with
    | [] => None
    | _ => Some (captioned 0 images)
    end
  /\ map fst (captioned 0 images) = images
  /\ (forall i, i < length images ->
        nth_error (map snd (captioned 0 images)) i = Some (view_caption i))
  /\ (forall i, 4 <= i ->
        view_caption i
        = str "View "
            ++ str (DecimalString.NilEmpty.string_of_uint
                      (Nat.to_uint (i + 1))))
  /\ LoadingOverlay st' = None
  /\ error st' = error st
  /\ (forall failing err,
        failing (prompt st) currentImage = Rejected err ->
        let st'' := handleGenerateMultiView failing st in
        multiViewImages st'' = multiViewImages st
        /\ ErrorToast st''
           = Some (or_else (App.message err)
                     (str "Failed to generate multi-view images."))
        /\ LoadingOverlay st'' = None).
Proof.
  intros st'. subst st'.
  unfold handleGenerateMultiView, handleGenerateMultiView_call.
  rewrite Himage, Hresult. repeat apply conj.
  - unfold MultiViewModal. simpl. now destruct images.
  - apply captioned_images.
  - intros i Hi. apply (captioned_captions 0 images i Hi).
  - intros i Hi. unfold view_caption. apply nth_overflow. simpl. lia.
  - reflexivity.
  - reflexivity.
  - intros failing err H. rewrite H. simpl. repeat split.
    unfold ErrorToast. simpl.
    pose proof (or_else_nonempty (App.message err)
                  (str "Failed to generate multi-view images.")) as Hn.
    destruct (or_else (App.message err)
                (str "Failed to generate multi-view images."));
      [exfalso; apply Hn; [discriminate | reflexivity] | reflexivity].
Qed.

Lemma multi_view_shows_what_returns_witness :
  let image := {| mimeType := str "image/png"; data := str "AAAA" |} in
  let view d := {| mimeType := str "image/png"; data := d |} in
  let views := [view (str "1"); view (str "2"); view (str "3");
                view (str "4"); view (str "5")] in
  option_map (map snd)
    (MultiViewModal
       (handleGenerateMultiView (fun _ _ => Fulfilled views)
          (setHistory (reset image) initial)))
  = Some [str "Front View"; str "Side View"; str "Rear View";
          str "Overhead View"; str "View 5"].
Proof.
  intros image view views.
  destruct (multi_view_shows_what_returns
              (setHistory (reset image) initial) image views
              (fun _ _ => Fulfilled views) eq_refl eq_refl) as (H & _).
  rewrite H. reflexivity.
Defined.
